(** * Backward taint analysis of the crash blamer

    A shallow embedding of [crash-blamer/lib/Analysis/TaintAnalysis.cpp]:
    the taint descriptors and their comparison, the address resolver, the
    taint list, the per-instruction propagation step, the backward scan of
    one frame and the walk over the frames of a crash trace.

    C++ code that dereferences a null pointer, asks a non-register operand
    for its register or reaches [llvm_unreachable] has no defined result;
    the embedding makes these outcomes explicit in the type [Res]. *)

From Stdlib Require Import ZArith List String Ascii Bool Lia.
Import ListNotations.

Local Open Scope string_scope.
Local Open Scope list_scope.
Local Open Scope Z_scope.

(** ** Outcomes of a call *)

Inductive Fault : Type :=
| NullDeref      (* [p->...] on a null pointer *)
| NotRegister    (* [MachineOperand::getReg] on an operand that is no register *)
| Unreachable.   (* [llvm_unreachable] *)

Inductive Res (A : Type) : Type :=
| Done (a : A)
| Abort (f : Fault).

Arguments Done {A} a.
Arguments Abort {A} f.

Definition bind {A B : Type} (c : Res A) (k : A -> Res B) : Res B :=
  match c with
  | Done a => k a
  | Abort f => Abort f
  end.

Notation "x <- c ;; k" := (bind c (fun x => k))
  (at level 61, c at next level, right associativity).
Notation "' pat <- c ;; k" := (bind c (fun x => match x with pat => k end))
  (at level 61, pat pattern, c at next level, right associativity).

(** [p->] on a pointer that may be null. *)
Definition deref {A : Type} (p : option A) : Res A :=
  match p with
  | Some a => Done a
  | None => Abort NullDeref
  end.

(** ** Operands *)

(** Register numbers are [unsigned]; they are only ever compared. *)
Definition Register : Type := N.

(** The two kinds of [MachineOperand] that the instruction effect extractor
    hands to the analysis: a register (for a memory operand, its base
    register) or an immediate. *)
Inductive MachineOperand : Type :=
| MO_Register (Reg : Register)
| MO_Immediate (ImmVal : Z).

Definition isImm (MO : MachineOperand) : bool :=
  match MO with
  | MO_Immediate _ => true
  | MO_Register _ => false
  end.

Definition getReg (MO : MachineOperand) : Res Register :=
  match MO with
  | MO_Register r => Done r
  | MO_Immediate _ => Abort NotRegister
  end.

(** ** Taint descriptors *)

(** Modelled from the spec: the declaration of [TaintInfo] lives in
    [Analysis/TaintAnalysis.h], which is not part of the sources at hand.
    Its fields are the operand reference, the optional displacement
    ([Optional<int64_t>], dereferenced with [*Ti.Offset]), the resolved flag
    and the resolved address (a [uint64_t]); a freshly declared descriptor
    is unresolved with address 0. *)
Record TaintInfo : Type := mkTaintInfo {
  Op : option MachineOperand;
  Offset : option Z;
  IsConcreteMemory : bool;
  ConcreteMemoryAddress : Z
}.

Definition GetTaintMemAddr (T : TaintInfo) : Z := ConcreteMemoryAddress T.
Definition IsTaintMemAddr (T : TaintInfo) : bool := IsConcreteMemory T.

(** [Optional::operator bool]. *)
Definition hasValue {A : Type} (o : option A) : bool :=
  match o with
  | Some _ => true
  | None => false
  end.

(** [operator==] on taint descriptors. *)
Definition operator_eq (T1 T2 : TaintInfo) : Res bool :=
  if negb (Bool.eqb (IsTaintMemAddr T1) (IsTaintMemAddr T2)) then Done false
  else if IsTaintMemAddr T1 && IsTaintMemAddr T2 then
    Done (GetTaintMemAddr T1 =? GetTaintMemAddr T2)
  else
    o1 <- deref (Op T1) ;;
    r1 <- getReg o1 ;;
    o2 <- deref (Op T2) ;;
    r2 <- getReg o2 ;;
    if negb (r1 =? r2)%N then Done false else Done true.

Definition operator_ne (T1 T2 : TaintInfo) : Res bool :=
  b <- operator_eq T1 T2 ;; Done (negb b).

(** ** Reading a register value captured in the core file *)

(** [StringRef::lower]: ASCII upper-case letters become lower-case. *)
Definition toLower (c : ascii) : ascii :=
  let n := N_of_ascii c in
  if ((65 <=? n) && (n <=? 90))%N then ascii_of_N (n + 32) else c.

Fixpoint lower (s : string) : string :=
  match s with
  | EmptyString => EmptyString
  | String c r => String (toLower c) (lower r)
  end.

Definition hexDigit (c : ascii) : option Z :=
  let n := Z.of_N (N_of_ascii c) in
  if (48 <=? n) && (n <=? 57) then Some (n - 48)
  else if (97 <=? n) && (n <=? 102) then Some (n - 87)
  else if (65 <=? n) && (n <=? 70) then Some (n - 55)
  else None.

(** The longest run of hexadecimal digits at the head of [s], read as a
    number on top of the accumulator [acc]. *)
Fixpoint hexDigits (s : string) (acc : Z) : Z :=
  match s with
  | EmptyString => acc
  | String c r =>
      match hexDigit c with
      | Some d => hexDigits r (16 * acc + d)
      | None => acc
      end
  end.

Definition isSpace (c : ascii) : bool :=
  let n := N_of_ascii c in
  ((n =? 32) || ((9 <=? n) && (n <=? 13)))%N.

Fixpoint skipSpace (s : string) : string :=
  match s with
  | String c r => if isSpace c then skipSpace r else s
  | EmptyString => s
  end.

Definition stripHexPrefix (s : string) : string :=
  match s with
  | String "0"%char (String "x"%char r) => r
  | String "0"%char (String "X"%char r) => r
  | _ => s
  end.

Definition UINT64_MAX : Z := 2 ^ 64 - 1.

(** [SS << std::hex << RegValue; SS >> RealAddr] with [RealAddr] a
    [uint64_t] that starts as 0: formatted extraction in base 16.  Leading
    white space is skipped, a sign and a [0x] prefix are accepted, digits
    are read as far as they go; no digit leaves 0, a value that does not
    fit is stored as the largest [uint64_t], and a minus sign negates
    modulo [2^64]. *)
Definition readHex (RegValue : string) : Z :=
  let s := skipSpace RegValue in
  let '(neg, s) :=
    match s with
    | String "-"%char r => (true, r)
    | String "+"%char r => (false, r)
    | _ => (false, s)
    end in
  let v := hexDigits (stripHexPrefix s) 0 in
  if UINT64_MAX <? v then UINT64_MAX
  else if neg then (- v) mod 2 ^ 64 else v.

(** ** Instructions, frames and the crash trace *)

(** Modelled from the spec: [DestSourcePair], what one instruction writes
    and reads, is declared with the target's instruction info, outside the
    sources at hand: an optional destination, first source and second
    source operand, each with an optional displacement.  The analysis reads
    exactly these six members. *)
Record DestSourcePair : Type := mkDestSourcePair {
  Destination : option MachineOperand;
  Source : option MachineOperand;
  DestOffset : option Z;
  SrcOffset : option Z;
  Source2 : option MachineOperand;
  Src2Offset : option Z
}.

(** [DILocation] as far as the blame report prints it. *)
Record DebugLoc : Type := mkDebugLoc {
  getLine : N;
  getFilename : string
}.

(** Modelled from the spec: a machine instruction as far as the analysis
    queries it, namely the [CrashStart] flag, the classification predicates of the target
    ([isCall], [isBranch], [TII->isPushPop]), the answer of
    [TII->getDestAndSrc], the debug location and the printed form. *)
Record MachineInstr : Type := mkMachineInstr {
  CrashStart : bool;
  isCall : bool;
  isBranch : bool;
  isPushPop : bool;
  getDestAndSrc : option DestSourcePair;
  getDebugLoc : option DebugLoc;
  print : string
}.

Definition MachineBasicBlock : Type := list MachineInstr.

(** Modelled from the spec: a lifted frame as far as the analysis queries
    it, namely its name, its basic blocks in program order, the
    register names of its subtarget ([TRI->getRegAsmName]) and the register
    values read from the core file ([getRegValueFromCrash], the empty
    string when there is none). *)
Record MachineFunction : Type := mkMachineFunction {
  getName : string;
  Blocks : list MachineBasicBlock;
  getRegAsmName : Register -> string;
  getRegValueFromCrash : string -> string
}.

(** ** The address resolver *)

Definition calculateMemAddr (mf : MachineFunction) (Ti : TaintInfo)
  : Res TaintInfo :=
  MO <- deref (Op Ti) ;;
  if isImm MO || negb (hasValue (Offset Ti)) then Done Ti
  else
    off <- deref (Offset Ti) ;;
    r <- getReg MO ;;
    let RegName := lower (getRegAsmName mf r) in
    let RegValue := getRegValueFromCrash mf RegName in
    if (RegValue =? "")%string
       || (negb (RegName =? "rsp")%string && negb (RegName =? "rbp")%string)
    then Done (mkTaintInfo (Op Ti) (Offset Ti) false (ConcreteMemoryAddress Ti))
    else
      let RealAddr := readHex RegValue in
      let RealAddr := (RealAddr + off) mod 2 ^ 64 in
      Done (mkTaintInfo (Op Ti) (Offset Ti) true RealAddr).

(** ** The taint list *)

(** Blame report lines written to [llvm::outs()]. *)
Inductive Output : Type :=
| BlameFunctionIs (Name : string)
| AtLineNumber (Line : N) (File : string)
| WarnCompileWithG
| BlameInstructionIs (MI : string).

(** The analysis object: its [TaintList] member and what it has written. *)
Record TaintAnalysis : Type := mkTaintAnalysis {
  TaintList : list TaintInfo;
  outs : list Output
}.

(** The freshly constructed analysis. *)
Definition newTaintAnalysis : TaintAnalysis := mkTaintAnalysis [] [].

Definition empty {A : Type} (l : list A) : bool :=
  match l with
  | [] => true
  | _ :: _ => false
  end.

Definition addToTaintList (Ti : TaintInfo) (TL : list TaintInfo)
  : list TaintInfo :=
  match Op Ti with
  | None => TL
  | Some MO => if negb (isImm MO) then TL ++ [Ti] else TL
  end.

Fixpoint removeFromTaintList (Ti : TaintInfo) (TL : list TaintInfo)
  : Res (list TaintInfo) :=
  match TL with
  | [] => Abort Unreachable
  | itr :: rest =>
      ne <- operator_ne itr Ti ;;
      if ne then
        rest' <- removeFromTaintList Ti rest ;; Done (itr :: rest')
      else Done rest
  end.

Definition Empty_op : TaintInfo := mkTaintInfo None (Some 0) false 0.

Fixpoint isTainted (Ti : TaintInfo) (TL : list TaintInfo) : Res TaintInfo :=
  match TL with
  | [] => Done Empty_op
  | itr :: rest =>
      e <- operator_eq itr Ti ;;
      if e then Done itr else isTainted Ti rest
  end.

(** ** Seeding and propagation *)

(** The descriptor of one slot of a [DestSourcePair]: the statements
    [Ti.Op = ...; Ti.Offset = ...; if (Ti.Offset) calculateMemAddr(Ti);]
    that [startTaint] and [propagateTaint] run for each slot. *)
Definition slotTaint (mf : MachineFunction) (MO : option MachineOperand)
    (off : option Z) : Res TaintInfo :=
  let Ti := mkTaintInfo MO off false 0 in
  if hasValue (Offset Ti) then calculateMemAddr mf Ti else Done Ti.

(** The report of [propagateTaint] about the instruction [MI] of [mf]. *)
Definition blameReport (mf : MachineFunction) (MI : MachineInstr)
  : list Output :=
  BlameFunctionIs (getName mf) ::
  match getDebugLoc MI with
  | Some DL => [AtLineNumber (getLine DL) (getFilename DL)]
  | None => [WarnCompileWithG; BlameInstructionIs (print MI)]
  end.

(** [propagateTaint(DS)] for the pair [DS] of the instruction [MI] of the
    frame [mf]; [true] when taint is propagated, [false] when it ends. *)
Definition propagateTaint (mf : MachineFunction) (MI : MachineInstr)
    (DS : DestSourcePair) (TA : TaintAnalysis) : Res (bool * TaintAnalysis) :=
  if empty (TaintList TA) then Done (false, TA)
  else
    SrcTi <- slotTaint mf (Source DS) (SrcOffset DS) ;;
    DestTi <- slotTaint mf (Destination DS) (DestOffset DS) ;;
    if negb (hasValue (Op DestTi)) then Done (true, TA)
    else
      Taint <- isTainted DestTi (TaintList TA) ;;
      if hasValue (Op Taint) then
        Src <- deref (Source DS) ;;
        if isImm Src then
          TL <- removeFromTaintList DestTi (TaintList TA) ;;
          Done (false, mkTaintAnalysis TL (outs TA ++ blameReport mf MI))
        else
          TL <- removeFromTaintList DestTi
                  (addToTaintList SrcTi (TaintList TA)) ;;
          Done (true, mkTaintAnalysis TL (outs TA))
      else Done (true, TA).

(** [startTaint(DS)]; the result of the nested [propagateTaint] is
    dropped, as in the source. *)
Definition startTaint (mf : MachineFunction) (MI : MachineInstr)
    (DS : DestSourcePair) (TA : TaintAnalysis) : Res TaintAnalysis :=
  SrcTi <- slotTaint mf (Source DS) (SrcOffset DS) ;;
  DestTi <- slotTaint mf (Destination DS) (DestOffset DS) ;;
  Src2Ti <- slotTaint mf (Source2 DS) (Src2Offset DS) ;;
  if empty (TaintList TA) then
    let TL := TaintList TA in
    let TL := if hasValue (Op DestTi) && hasValue (Offset DestTi)
              then addToTaintList DestTi TL else TL in
    let TL := if hasValue (Op SrcTi) then addToTaintList SrcTi TL else TL in
    let TL := if hasValue (Op Src2Ti) then addToTaintList Src2Ti TL else TL in
    Done (mkTaintAnalysis TL (outs TA))
  else if hasValue (Op DestTi) then
    '(_, TA') <- propagateTaint mf MI DS TA ;; Done TA'
  else Done TA.

(** ** The backward scan of one frame *)

(** The locals of [runOnBlameMF] together with the analysis object. *)
Record ScanState : Type := mkScanState {
  CrashSequenceStarted : bool;
  Result : bool;
  TA : TaintAnalysis
}.

(** How the body of the instruction loop leaves: [continue] (or falling
    off its end), [break], or [return]. *)
Inductive LoopExit : Type :=
| LoopContinue
| LoopBreak
| LoopReturn (b : bool).

(** The body of the inner loop of [runOnBlameMF] for the instruction [MI]. *)
Definition scanInstr (mf : MachineFunction) (MI : MachineInstr)
    (st : ScanState) : Res (LoopExit * ScanState) :=
  if CrashStart MI then
    match getDestAndSrc MI with
    | None => Done (LoopContinue, mkScanState true (Result st) (TA st))
    | Some DestSrc =>
        TA' <- startTaint mf MI DestSrc (TA st) ;;
        Done (LoopContinue, mkScanState true (Result st) TA')
    end
  else if negb (CrashSequenceStarted st) then Done (LoopContinue, st)
  else if isCall MI || isBranch MI then Done (LoopContinue, st)
  else if isPushPop MI then Done (LoopBreak, st)
  else
    match getDestAndSrc MI with
    | None => Done (LoopContinue, st)
    | Some DestSrc =>
        '(TaintResult, TA') <- propagateTaint mf MI DestSrc (TA st) ;;
        let Result' := if negb TaintResult then true else Result st in
        let st' := mkScanState (CrashSequenceStarted st) Result' TA' in
        if negb TaintResult && empty (TaintList TA')
        then Done (LoopReturn true, st')
        else Done (LoopContinue, st')
    end.

(** The inner loop over the instructions [MIs] of one block, given last
    instruction first.  [None] means that the loop was left by its end or
    by [break]; [Some b] that the function returned [b]. *)
Fixpoint scanBlock (mf : MachineFunction) (MIs : list MachineInstr)
    (st : ScanState) : Res (option bool * ScanState) :=
  match MIs with
  | [] => Done (None, st)
  | MI :: rest =>
      '(ex, st') <- scanInstr mf MI st ;;
      match ex with
      | LoopContinue => scanBlock mf rest st'
      | LoopBreak => Done (None, st')
      | LoopReturn b => Done (Some b, st')
      end
  end.

(** The outer loop over the blocks [MBBs], given last block first, and the
    final [return Result]. *)
Fixpoint scanBlocks (mf : MachineFunction) (MBBs : list MachineBasicBlock)
    (st : ScanState) : Res (bool * TaintAnalysis) :=
  match MBBs with
  | [] => Done (Result st, TA st)
  | MBB :: rest =>
      '(ret, st') <- scanBlock mf (rev MBB) st ;;
      match ret with
      | Some b => Done (b, TA st')
      | None => scanBlocks mf rest st'
      end
  end.

(** [runOnBlameMF(MF)]; the forward location tracking that precedes the
    scan belongs to another component and [mf] is the frame as that pass
    leaves it. *)
Definition runOnBlameMF (mf : MachineFunction) (TA0 : TaintAnalysis)
  : Res (bool * TaintAnalysis) :=
  scanBlocks mf (rev (Blocks mf)) (mkScanState false false TA0).

(** ** The walk over the crash trace *)

(** Modelled from the spec: one entry of the [BlameModule], the function
    name of the frame and its lifted function, null when the frame was not
    decompiled. *)
Record BlameFunction : Type := mkBlameFunction {
  Name : string;
  MF : option MachineFunction
}.

Definition BlameModule : Type := list BlameFunction.

Definition startswith (p s : string) : bool := String.prefix p s.

(** The loop of [runOnBlameModule] from the locals [AnalysisStarted] and
    [Result0] on, and the final [return Result]. *)
Fixpoint walkFrames (BM : BlameModule) (AnalysisStarted Result0 : bool)
    (TA0 : TaintAnalysis) : Res (bool * TaintAnalysis) :=
  match BM with
  | [] => Done (Result0, TA0)
  | BF :: rest =>
      if negb AnalysisStarted && startswith "_" (Name BF)
      then walkFrames rest AnalysisStarted Result0 TA0
      else
        match MF BF with
        | None => Done (Result0, TA0)
        | Some mf =>
            '(found, TA') <- runOnBlameMF mf TA0 ;;
            if found then
              if empty (TaintList TA') then Done (true, TA')
              else walkFrames rest true (Result0 || true) TA'
            else walkFrames rest true Result0 TA'
        end
  end.

Definition runOnBlameModule (BM : BlameModule) (TA0 : TaintAnalysis)
  : Res (bool * TaintAnalysis) :=
  walkFrames BM false false TA0.

(** ** The transition system of the specification

    The definitions of this section follow the words of the specification
    and are compared with the code below. *)

(** A descriptor over a register operand, the only kind the taint list
    ever holds. *)
Definition overRegister (T : TaintInfo) : bool :=
  match Op T with
  | Some (MO_Register _) => true
  | _ => false
  end.

Definition regOf (T : TaintInfo) : option Register :=
  match Op T with
  | Some (MO_Register r) => Some r
  | _ => None
  end.

(** The membership equality as a total test: addresses when both sides are
    resolved, register numbers when neither is. *)
Definition taintEq (A B : TaintInfo) : bool :=
  match IsConcreteMemory A, IsConcreteMemory B with
  | true, true => ConcreteMemoryAddress A =? ConcreteMemoryAddress B
  | false, false =>
      match regOf A, regOf B with
      | Some a, Some b => (a =? b)%N
      | _, _ => false
      end
  | _, _ => false
  end.

(** The first stored descriptor equal to [Ti]. *)
Definition lookup (Ti : TaintInfo) (TL : list TaintInfo) : option TaintInfo :=
  find (fun itr => taintEq itr Ti) TL.

(** [TL] without the first stored descriptor equal to [Ti]. *)
Fixpoint erase (Ti : TaintInfo) (TL : list TaintInfo) : list TaintInfo :=
  match TL with
  | [] => []
  | itr :: rest => if taintEq itr Ti then rest else itr :: erase Ti rest
  end.

(** The descriptor of a present operand with its optional displacement,
    resolved against the register snapshot of the frame. *)
Definition descriptor (mf : MachineFunction) (MO : MachineOperand)
    (off : option Z) : TaintInfo :=
  match MO, off with
  | MO_Register r, Some d =>
      let RegName := lower (getRegAsmName mf r) in
      let RegValue := getRegValueFromCrash mf RegName in
      if negb (RegValue =? "")%string
         && ((RegName =? "rsp")%string || (RegName =? "rbp")%string)
      then mkTaintInfo (Some MO) off true ((readHex RegValue + d) mod 2 ^ 64)
      else mkTaintInfo (Some MO) off false 0
  | _, _ => mkTaintInfo (Some MO) off false 0
  end.

Inductive Propagation : Type :=
| Continue
| TerminateFound
| TerminateEmpty.

(** What the boolean result of [propagateTaint] says. *)
Definition propagated (p : Propagation) : bool :=
  match p with
  | Continue => true
  | TerminateFound | TerminateEmpty => false
  end.

(** The propagation step of the specification, case by case.  Inserting
    an absent operand is a no-op. *)
Definition Propagate (mf : MachineFunction) (DS : DestSourcePair)
    (TL : list TaintInfo) : Propagation * list TaintInfo :=
  match TL with
  | [] => (TerminateEmpty, TL)
  | _ :: _ =>
      match Destination DS with
      | None => (Continue, TL)
      | Some Dest =>
          let DestTi := descriptor mf Dest (DestOffset DS) in
          match lookup DestTi TL with
          | None => (Continue, TL)
          | Some _ =>
              match Source DS with
              | Some (MO_Immediate _) => (TerminateFound, erase DestTi TL)
              | Some Src =>
                  (Continue,
                   erase DestTi (TL ++ [descriptor mf Src (SrcOffset DS)]))
              | None => (Continue, erase DestTi TL)
              end
          end
      end
  end.

(** The destination found in the taint list. *)
Definition destinationTainted (mf : MachineFunction) (DS : DestSourcePair)
    (TL : list TaintInfo) : bool :=
  match Destination DS with
  | Some Dest => hasValue (lookup (descriptor mf Dest (DestOffset DS)) TL)
  | None => false
  end.

(** A displacement only comes with its operand. *)
Definition slotOk (MO : option MachineOperand) (off : option Z) : bool :=
  hasValue MO || negb (hasValue off).

Definition wfSlots (DS : DestSourcePair) : bool :=
  slotOk (Destination DS) (DestOffset DS)
  && slotOk (Source DS) (SrcOffset DS)
  && slotOk (Source2 DS) (Src2Offset DS).

(** The pairs the extractor produces: displacements only on present
    operands, and a destination that is no immediate. *)
Definition wfPair (DS : DestSourcePair) : bool :=
  wfSlots DS
  && match Destination DS with
     | Some Dest => negb (isImm Dest)
     | None => true
     end.

(** The invariant of the taint list: every entry is over a register. *)
Definition wfTaintList (TL : list TaintInfo) : bool := forallb overRegister TL.

(** What seeding puts into the empty taint list: the destination when it
    is a memory operand, and each source that is present and no
    immediate. *)
Definition seedIf (c : bool) (Ti : TaintInfo) : list TaintInfo :=
  if c then [Ti] else [].

Definition seeds (mf : MachineFunction) (DS : DestSourcePair)
  : list TaintInfo :=
  match Destination DS with
  | Some Dest =>
      seedIf (hasValue (DestOffset DS) && negb (isImm Dest))
             (descriptor mf Dest (DestOffset DS))
  | None => []
  end
  ++ match Source DS with
     | Some Src => seedIf (negb (isImm Src)) (descriptor mf Src (SrcOffset DS))
     | None => []
     end
  ++ match Source2 DS with
     | Some Src2 =>
         seedIf (negb (isImm Src2)) (descriptor mf Src2 (Src2Offset DS))
     | None => []
     end.

(** The walk of the specification once the start-up frames are gone: no
    frame is skipped for its name. *)
Fixpoint scanFrames (BM : BlameModule) (Result0 : bool) (TA0 : TaintAnalysis)
  : Res (bool * TaintAnalysis) :=
  match BM with
  | [] => Done (Result0, TA0)
  | BF :: rest =>
      match MF BF with
      | None => Done (Result0, TA0)
      | Some mf =>
          '(found, TA') <- runOnBlameMF mf TA0 ;;
          if found then
            if empty (TaintList TA') then Done (true, TA')
            else scanFrames rest true TA'
          else scanFrames rest Result0 TA'
      end
  end.

(** The leading frames that the walk skips. *)
Fixpoint dropStartup (BM : BlameModule) : BlameModule :=
  match BM with
  | BF :: rest => if startswith "_" (Name BF) then dropStartup rest else BM
  | [] => []
  end.

(** ** A small x86-64 frame for concrete runs *)

Module X86.

Definition RAX : Register := 1%N.
Definition RBX : Register := 2%N.
Definition RCX : Register := 3%N.
Definition RBP : Register := 4%N.
Definition RSP : Register := 5%N.

Definition AsmName (r : Register) : string :=
  match r with
  | 1%N => "RAX"
  | 2%N => "RBX"
  | 3%N => "RCX"
  | 4%N => "RBP"
  | 5%N => "RSP"
  | _ => "NOREG"
  end.

(** A register snapshot that knows [rbp], [rsp] and [rcx]. *)
Definition Snapshot (RegName : string) : string :=
  if (RegName =? "rbp")%string then "0x7ffc0010"
  else if (RegName =? "rsp")%string then "0x7ffc0000"
  else if (RegName =? "rcx")%string then "0x1000"
  else "".

Definition reg (r : Register) : option MachineOperand := Some (MO_Register r).
Definition imm (v : Z) : option MachineOperand := Some (MO_Immediate v).

(** An ordinary instruction (no call, branch, push or pop) with a pair. *)
Definition instr (crash : bool) (DS : DestSourcePair) (txt : string)
  : MachineInstr :=
  mkMachineInstr crash false false false (Some DS) None txt.

Definition frame (name : string) (MBBs : list MachineBasicBlock)
  : MachineFunction :=
  mkMachineFunction name MBBs AsmName Snapshot.

Definition pair (Dest : option MachineOperand) (DestOff : option Z)
    (Src : option MachineOperand) (SrcOff : option Z) : DestSourcePair :=
  mkDestSourcePair Dest Src DestOff SrcOff None None.

(** [mov [rax+8], rbx], the crashing store. *)
Definition crashStore : MachineInstr :=
  instr true (pair (reg RAX) (Some 8) (reg RBX) None) "mov [rax+8], rbx".

(** [mov [rax+8], 0], a crashing store of a constant. *)
Definition crashStoreImm : MachineInstr :=
  instr true (pair (reg RAX) (Some 8) (imm 0) None) "mov [rax+8], 0".

Definition movRaxZero : MachineInstr :=
  instr false (pair (reg RAX) None (imm 0) None) "mov rax, 0".

Definition movRaxRbx : MachineInstr :=
  instr false (pair (reg RAX) None (reg RBX) None) "mov rax, rbx".

Definition movRbxRcx : MachineInstr :=
  instr false (pair (reg RBX) None (reg RCX) None) "mov rbx, rcx".

Definition popRbp : MachineInstr :=
  mkMachineInstr false false false true None None "pop rbp".

(** A pair with a destination and no source. *)
Definition destOnly : DestSourcePair := pair (reg RAX) None None None.

Definition taintOf (r : Register) : TaintInfo :=
  mkTaintInfo (reg r) None false 0.

(** A frame of three blocks: the entry block, an early exit that pops
    [rbp], and the block of the crashing store. *)
Definition earlyExit : MachineFunction :=
  frame "main" [[movRaxZero]; [popRbp]; [crashStore]].

(** A frame in which a constant is found while [rbx] stays tainted. *)
Definition residual : MachineFunction :=
  frame "main" [[movRbxRcx; movRaxZero; crashStore]].

(** [mov rbx, [rax+8]], a crashing load through [rax]. *)
Definition crashLoad : MachineInstr :=
  instr true (pair (reg RBX) None (reg RAX) (Some 8)) "mov rbx, [rax+8]".

(** A frame in which the constant explains the only taint. *)
Definition nullDeref : MachineFunction :=
  frame "main" [[movRbxRcx; movRaxZero; crashLoad]].

(** An outer frame whose flagged instruction is [mov rcx, rbx]. *)
Definition caller : MachineFunction :=
  frame "caller"
    [[instr true (pair (reg RCX) None (reg RBX) None) "mov rcx, rbx"]].

(** The report that blames [mov rax, 0] of [main]. *)
Definition blameMovRaxZero : list Output :=
  [BlameFunctionIs "main"; WarnCompileWithG; BlameInstructionIs "mov rax, 0"].

End X86.

(** ** Notions used to state further properties of the code *)

(** The base registers that [calculateMemAddr] trusts in the frame [mf]:
    a captured value and the name [rsp] or [rbp]. *)
Definition trusted (mf : MachineFunction) (r : Register) : bool :=
  let RegName := lower (getRegAsmName mf r) in
  negb (getRegValueFromCrash mf RegName =? "")%string
  && ((RegName =? "rsp")%string || (RegName =? "rbp")%string).

(** The address of [r + d] in the frame [mf], as a [uint64_t]. *)
Definition address (mf : MachineFunction) (r : Register) (d : Z) : Z :=
  (readHex (getRegValueFromCrash mf (lower (getRegAsmName mf r))) + d)
  mod 2 ^ 64.

(** A slot over the register [r] ends resolved when it carries a
    displacement and [r] is trusted. *)
Definition resolves (mf : MachineFunction) (r : Register) (off : option Z)
  : bool :=
  hasValue off && trusted mf r.

(** Instructions that the scan passes over wherever they stand: not the
    crash point, and a call, a branch, or neither push/pop nor an
    instruction with a pair. *)
Definition passedOver (MI : MachineInstr) : bool :=
  negb (CrashStart MI)
  && (isCall MI || isBranch MI
      || (negb (isPushPop MI) && negb (hasValue (getDestAndSrc MI)))).

(** No instruction of the block is the crash point. *)
Definition noCrashStart (MBB : MachineBasicBlock) : bool :=
  forallb (fun MI => negb (CrashStart MI)) MBB.

(** An instruction past the crash point that reaches [propagateTaint]. *)
Definition ordinary (MI : MachineInstr) : bool :=
  negb (CrashStart MI) && negb (isCall MI || isBranch MI)
  && negb (isPushPop MI) && hasValue (getDestAndSrc MI).

(** The frame [mf] with other basic blocks. *)
Definition withBlocks (mf : MachineFunction) (MBBs : list MachineBasicBlock)
  : MachineFunction :=
  mkMachineFunction (getName mf) MBBs (getRegAsmName mf)
    (getRegValueFromCrash mf).

(** The output of [T] extends [o0], properly so when [flag] is set. *)
Definition reported (o0 : list Output) (flag : bool) (T : TaintAnalysis)
  : Prop :=
  exists o, outs T = o0 ++ o /\ (flag = true -> o <> []).

Module Runs.

(** [call f], which the scan passes over. *)
Definition callF : MachineInstr :=
  mkMachineInstr false true false false None None "call f".

(** [mov rax, 5], a crash point that seeds nothing. *)
Definition crashMovImm : MachineInstr :=
  X86.instr true (X86.pair (X86.reg X86.RAX) None (X86.imm 5) None)
    "mov rax, 5".

(** [mov rax, 0] flagged as the crash point of an outer frame. *)
Definition crashMovRaxZero : MachineInstr :=
  X86.instr true (X86.pair (X86.reg X86.RAX) None (X86.imm 0) None)
    "mov rax, 0".

(** An innermost frame that holds the crashing load only. *)
Definition loadOnly : MachineFunction :=
  X86.frame "main" [[X86.crashLoad]].

(** An outer frame whose flagged instruction is [mov rax, 0]. *)
Definition callerZero : MachineFunction :=
  X86.frame "caller" [[crashMovRaxZero]].

(** The report that blames [mov rax, 0] of [caller]. *)
Definition blameCallerZero : list Output :=
  [BlameFunctionIs "caller"; WarnCompileWithG;
   BlameInstructionIs "mov rax, 0"].

(** [mov [rbp-8], rbx] and [mov rcx, [rsp+8]]: with [rbp = rsp + 16] both
    name the same stack slot. *)
Definition slotRbp : TaintInfo :=
  mkTaintInfo (X86.reg X86.RBP) (Some (-8)) true 2147221512.

End Runs.

(** * Properties *)

(** ** The comparison of taint descriptors *)

Lemma hexDigit_range (c : ascii) (d : Z) :
  hexDigit c = Some d -> 0 <= d < 16.
Proof.
  unfold hexDigit.
  set (n := Z.of_N (N_of_ascii c)).
  destruct ((48 <=? n) && (n <=? 57)) eqn:E1.
  { apply andb_prop in E1 as [L U]. apply Z.leb_le in L, U.
    intros H; injection H as <-; lia. }
  destruct ((97 <=? n) && (n <=? 102)) eqn:E2.
  { apply andb_prop in E2 as [L U]. apply Z.leb_le in L, U.
    intros H; injection H as <-; lia. }
  destruct ((65 <=? n) && (n <=? 70)) eqn:E3.
  { apply andb_prop in E3 as [L U]. apply Z.leb_le in L, U.
    intros H; injection H as <-; lia. }
  discriminate.
Qed.

Lemma hexDigits_nonneg (s : string) :
  forall acc, 0 <= acc -> 0 <= hexDigits s acc.
Proof.
  induction s as [|c s IH]; intros acc Hacc; cbn [hexDigits]; [exact Hacc|].
  destruct (hexDigit c) as [d|] eqn:E; [|exact Hacc].
  apply hexDigit_range in E. apply IH. lia.
Qed.

Lemma readHex_range (s : string) : 0 <= readHex s < 2 ^ 64.
Proof.
  unfold readHex.
  destruct (match skipSpace s with
            | String "-"%char r => (true, r)
            | String "+"%char r => (false, r)
            | _ => (false, skipSpace s)
            end) as [neg t].
  pose proof (hexDigits_nonneg (stripHexPrefix t) 0 (Z.le_refl 0)) as Hd.
  destruct (UINT64_MAX <? hexDigits (stripHexPrefix t) 0) eqn:E.
  - unfold UINT64_MAX; lia.
  - apply Z.ltb_ge in E. unfold UINT64_MAX in E.
    destruct neg; [apply Z.mod_pos_bound; lia | lia].
Qed.

Example readHex_rbp : readHex (X86.Snapshot "rbp") = 2147221520.
Proof. reflexivity. Qed.

(** C7: two descriptors that are both resolved to an address are equal
    exactly when the addresses are equal; the operands are not looked at. *)
Theorem operator_eq_both_resolved (T1 T2 : TaintInfo) :
  IsConcreteMemory T1 = true ->
  IsConcreteMemory T2 = true ->
  operator_eq T1 T2
  = Done (ConcreteMemoryAddress T1 =? ConcreteMemoryAddress T2)
  /\ (operator_eq T1 T2 = Done true
      <-> ConcreteMemoryAddress T1 = ConcreteMemoryAddress T2).
Proof.
  intros H1 H2.
  assert (E : operator_eq T1 T2
              = Done (ConcreteMemoryAddress T1 =? ConcreteMemoryAddress T2)).
  { unfold operator_eq, IsTaintMemAddr, GetTaintMemAddr.
    rewrite H1, H2. reflexivity. }
  split; [exact E|].
  rewrite E. split.
  - intros H. injection H as H. now apply Z.eqb_eq.
  - intros H. f_equal. now apply Z.eqb_eq.
Qed.

Lemma operator_eq_both_resolved_witness :
  let T1 := mkTaintInfo (X86.reg X86.RBP) (Some (-8)) true 4096 in
  let T2 := mkTaintInfo (X86.reg X86.RSP) (Some 16) true 4096 in
  operator_eq T1 T2 = Done true.
Proof.
  intros T1 T2.
  destruct (operator_eq_both_resolved T1 T2 eq_refl eq_refl) as [E _].
  exact E.
Defined.

(** C1, first half as the code has it: the claim read on a pair with
    exactly one resolved descriptor over the same register. *)
Lemma operator_eq_one_resolved_same_register :
  let T1 := mkTaintInfo (X86.reg X86.RBP) (Some (-8)) true 4096 in
  let T2 := mkTaintInfo (X86.reg X86.RBP) None false 0 in
  IsConcreteMemory T2 = false
  /\ Op T1 = Some (MO_Register X86.RBP)
  /\ Op T2 = Some (MO_Register X86.RBP)
  /\ operator_eq T1 T2 = Done false
  /\ operator_eq T2 T1 = Done false.
Proof. repeat split. Qed.

(** C1 (amended): two unresolved descriptors over register operands are
    equal exactly when the register numbers are equal, whatever their
    displacements; a resolved and an unresolved descriptor are never
    equal. *)
Theorem operator_eq_not_both_resolved (T1 T2 : TaintInfo) (r1 r2 : Register) :
  Op T1 = Some (MO_Register r1) ->
  Op T2 = Some (MO_Register r2) ->
  (IsConcreteMemory T1 = false -> IsConcreteMemory T2 = false ->
   operator_eq T1 T2 = Done (r1 =? r2)%N
   /\ (operator_eq T1 T2 = Done true <-> r1 = r2))
  /\ (IsConcreteMemory T1 <> IsConcreteMemory T2 ->
      operator_eq T1 T2 = Done false).
Proof.
  intros O1 O2. split.
  - intros H1 H2.
    assert (E : operator_eq T1 T2 = Done (r1 =? r2)%N).
    { unfold operator_eq, IsTaintMemAddr. rewrite H1, H2, O1, O2. simpl.
      now destruct (r1 =? r2)%N. }
    split; [exact E|]. rewrite E. split.
    + intros H. injection H as H. now apply N.eqb_eq.
    + intros H. f_equal. now apply N.eqb_eq.
  - intros Hne. unfold operator_eq, IsTaintMemAddr.
    destruct (IsConcreteMemory T1), (IsConcreteMemory T2);
      try reflexivity; now destruct Hne.
Qed.

Lemma operator_eq_not_both_resolved_witness :
  let T1 := mkTaintInfo (X86.reg X86.RAX) (Some 8) false 0 in
  let T2 := mkTaintInfo (X86.reg X86.RAX) None false 0 in
  let T3 := mkTaintInfo (X86.reg X86.RAX) (Some 8) true 4104 in
  operator_eq T1 T2 = Done true /\ operator_eq T3 T2 = Done false.
Proof.
  intros T1 T2 T3. split.
  - destruct (operator_eq_not_both_resolved T1 T2 X86.RAX X86.RAX
                eq_refl eq_refl) as [H _].
    destruct (H eq_refl eq_refl) as [E _]. exact E.
  - destruct (operator_eq_not_both_resolved T3 T2 X86.RAX X86.RAX
                eq_refl eq_refl) as [_ H].
    apply H. simpl. discriminate.
Defined.

(** ** The address resolver *)

Lemma string_eqb_false_iff (a b : string) : (a =? b)%string = false <-> a <> b.
Proof.
  destruct (String.eqb_spec a b) as [E|E]; split; intros H;
    try discriminate; try reflexivity; try assumption.
  now destruct H.
Qed.

(** The test that [calculateMemAddr] makes before it trusts a base
    register, as a proposition. *)
Lemma trusted_base_iff (RegName RegValue : string) :
  ((RegValue =? "")%string
   || (negb (RegName =? "rsp")%string && negb (RegName =? "rbp")%string)
   = false)
  <-> RegValue <> "" /\ (RegName = "rsp" \/ RegName = "rbp").
Proof.
  rewrite orb_false_iff, string_eqb_false_iff, andb_false_iff,
    !negb_false_iff, !String.eqb_eq.
  reflexivity.
Qed.

(** C5: a descriptor with a displacement over a register operand is
    resolved exactly when the captured value of the base register is not
    empty and the register is [rsp] or [rbp]; the address is then the
    value read as hexadecimal plus the displacement, in 64-bit unsigned
    arithmetic, and otherwise the descriptor is unresolved.  An immediate
    operand or a missing displacement leaves the descriptor as it is. *)
Theorem calculateMemAddr_resolves (mf : MachineFunction) (Ti : TaintInfo)
    (MO : MachineOperand) :
  Op Ti = Some MO ->
  (isImm MO = true \/ Offset Ti = None -> calculateMemAddr mf Ti = Done Ti)
  /\ (forall off, isImm MO = false -> Offset Ti = Some off ->
      exists r Ti',
        MO = MO_Register r
        /\ calculateMemAddr mf Ti = Done Ti'
        /\ Op Ti' = Op Ti /\ Offset Ti' = Offset Ti
        /\ let RegName := lower (getRegAsmName mf r) in
           let RegValue := getRegValueFromCrash mf RegName in
           (IsConcreteMemory Ti' = true
            <-> RegValue <> "" /\ (RegName = "rsp" \/ RegName = "rbp"))
           /\ (IsConcreteMemory Ti' = true ->
               ConcreteMemoryAddress Ti' = (readHex RegValue + off) mod 2 ^ 64
               /\ (0 <= readHex RegValue + off < 2 ^ 64 ->
                   ConcreteMemoryAddress Ti' = readHex RegValue + off))
           /\ (IsConcreteMemory Ti' = false ->
               ConcreteMemoryAddress Ti' = ConcreteMemoryAddress Ti)).
Proof.
  intros HOp. split.
  - intros [Hi|Ho]; unfold calculateMemAddr; rewrite HOp; simpl.
    + now rewrite Hi.
    + rewrite Ho. simpl. now rewrite orb_true_r.
  - intros off Hi Ho.
    destruct MO as [r|v]; [|discriminate Hi].
    exists r. unfold calculateMemAddr. rewrite HOp, Ho. simpl.
    set (RegName := lower (getRegAsmName mf r)).
    set (RegValue := getRegValueFromCrash mf RegName).
    destruct ((RegValue =? "")%string
              || (negb (RegName =? "rsp")%string
                  && negb (RegName =? "rbp")%string)) eqn:E.
    + eexists. split; [reflexivity|]. split; [reflexivity|].
      cbn [Op Offset IsConcreteMemory ConcreteMemoryAddress].
      do 2 (split; [reflexivity|]).
      split; [|split; [discriminate | reflexivity]].
      split; [discriminate|].
      intros H. apply trusted_base_iff in H. congruence.
    + eexists. split; [reflexivity|]. split; [reflexivity|].
      cbn [Op Offset IsConcreteMemory ConcreteMemoryAddress].
      apply trusted_base_iff in E.
      do 2 (split; [reflexivity|]).
      split; [|split; [|discriminate]].
      * split; [intros _; exact E | reflexivity].
      * intros _. split; [reflexivity|].
        intros R. now apply Z.mod_small.
Qed.

Lemma calculateMemAddr_resolves_witness :
  let mf := X86.frame "main" [] in
  let Ti := mkTaintInfo (X86.reg X86.RBP) (Some (-8)) false 0 in
  calculateMemAddr mf (mkTaintInfo (X86.imm 0) (Some 4) false 0)
  = Done (mkTaintInfo (X86.imm 0) (Some 4) false 0)
  /\ exists Ti', calculateMemAddr mf Ti = Done Ti'
                 /\ IsConcreteMemory Ti' = true
                 /\ ConcreteMemoryAddress Ti' = 2147221512.
Proof.
  intros mf Ti. split.
  - destruct (calculateMemAddr_resolves mf
                (mkTaintInfo (X86.imm 0) (Some 4) false 0)
                (MO_Immediate 0) eq_refl) as [H _].
    apply H. left. reflexivity.
  - destruct (calculateMemAddr_resolves mf Ti (MO_Register X86.RBP) eq_refl)
      as [_ H].
    destruct (H (-8) eq_refl eq_refl) as (r & Ti' & Er & E & _ & _ & R & A & _).
    exists Ti'. injection Er as <-.
    assert (HR : IsConcreteMemory Ti' = true).
    { apply R. split; [discriminate | right; reflexivity]. }
    split; [exact E|]. split; [exact HR|].
    destruct (A HR) as [A1 _]. rewrite A1. reflexivity.
Defined.

(** ** Descriptors of the slots of a pair *)

Lemma descriptor_Op (mf : MachineFunction) (MO : MachineOperand)
    (off : option Z) :
  Op (descriptor mf MO off) = Some MO.
Proof.
  unfold descriptor. destruct MO as [r|v], off as [d|]; try reflexivity.
  now destruct (negb _ && _).
Qed.

Lemma descriptor_Offset (mf : MachineFunction) (MO : MachineOperand)
    (off : option Z) :
  Offset (descriptor mf MO off) = off.
Proof.
  unfold descriptor. destruct MO as [r|v], off as [d|]; try reflexivity.
  now destruct (negb _ && _).
Qed.

Lemma slotTaint_present (mf : MachineFunction) (MO : MachineOperand)
    (off : option Z) :
  slotTaint mf (Some MO) off = Done (descriptor mf MO off).
Proof.
  unfold slotTaint, descriptor, calculateMemAddr.
  destruct off as [d|]; cbn [Offset Op hasValue deref bind];
    [|now destruct MO].
  destruct MO as [r|v]; cbn [isImm getReg orb negb bind deref];
    [|reflexivity].
  cbn [ConcreteMemoryAddress].
  destruct (getRegValueFromCrash mf (lower (getRegAsmName mf r)) =? "")%string,
    (lower (getRegAsmName mf r) =? "rsp")%string,
    (lower (getRegAsmName mf r) =? "rbp")%string; reflexivity.
Qed.

Lemma slotTaint_absent (mf : MachineFunction) :
  slotTaint mf None None = Done (mkTaintInfo None None false 0).
Proof. reflexivity. Qed.

Lemma slotTaint_ok (mf : MachineFunction) (MO : option MachineOperand)
    (off : option Z) :
  slotOk MO off = true ->
  slotTaint mf MO off
  = Done (match MO with
          | Some M => descriptor mf M off
          | None => mkTaintInfo None None false 0
          end).
Proof.
  destruct MO as [M|]; intros H; [apply slotTaint_present|].
  destruct off; [discriminate H | reflexivity].
Qed.

(** ** The taint list under its invariant *)

Lemma operator_eq_taintEq (A B : TaintInfo) :
  overRegister A = true -> overRegister B = true ->
  operator_eq A B = Done (taintEq A B).
Proof.
  unfold overRegister, operator_eq, taintEq, regOf, IsTaintMemAddr,
    GetTaintMemAddr.
  destruct (Op A) as [[ra|]|]; try discriminate.
  destruct (Op B) as [[rb|]|]; try discriminate.
  intros _ _.
  destruct (IsConcreteMemory A), (IsConcreteMemory B); try reflexivity.
  cbn. now destruct (ra =? rb)%N.
Qed.

Lemma lookup_overRegister (Ti T : TaintInfo) (TL : list TaintInfo) :
  wfTaintList TL = true -> lookup Ti TL = Some T -> overRegister T = true.
Proof.
  unfold wfTaintList, lookup. intros W F.
  apply find_some in F as [I _].
  rewrite forallb_forall in W. now apply W.
Qed.

Lemma isTainted_lookup (Ti : TaintInfo) (TL : list TaintInfo) :
  wfTaintList TL = true -> overRegister Ti = true ->
  isTainted Ti TL
  = Done (match lookup Ti TL with
          | Some T => T
          | None => Empty_op
          end).
Proof.
  intros W O. induction TL as [|itr rest IH]; [reflexivity|].
  cbn in W. apply andb_prop in W as [Wi Wr].
  cbn [isTainted]. rewrite (operator_eq_taintEq _ _ Wi O).
  unfold lookup. cbn [bind find].
  destruct (taintEq itr Ti); [reflexivity | now apply IH].
Qed.

Lemma removeFromTaintList_erase (Ti : TaintInfo) (TL : list TaintInfo) :
  wfTaintList TL = true -> overRegister Ti = true ->
  hasValue (lookup Ti TL) = true ->
  removeFromTaintList Ti TL = Done (erase Ti TL).
Proof.
  intros W O. induction TL as [|itr rest IH]; [discriminate|].
  cbn in W. apply andb_prop in W as [Wi Wr].
  unfold lookup. cbn [removeFromTaintList find erase]. unfold operator_ne.
  rewrite (operator_eq_taintEq _ _ Wi O). cbn [bind].
  destruct (taintEq itr Ti); cbn [negb]; [reflexivity|].
  intros F. fold (lookup Ti rest) in F. now rewrite (IH Wr F).
Qed.

Lemma erase_length (Ti : TaintInfo) (TL : list TaintInfo) :
  hasValue (lookup Ti TL) = true ->
  S (List.length (erase Ti TL)) = List.length TL.
Proof.
  unfold lookup. induction TL as [|itr rest IH]; [discriminate|].
  cbn [find erase]. destruct (taintEq itr Ti); [reflexivity|].
  intros F. cbn [List.length]. now rewrite (IH F).
Qed.

Lemma erase_app (Ti T : TaintInfo) (TL : list TaintInfo) :
  hasValue (lookup Ti TL) = true ->
  erase Ti (TL ++ [T]) = erase Ti TL ++ [T].
Proof.
  unfold lookup. induction TL as [|itr rest IH]; [discriminate|].
  cbn [find erase app]. destruct (taintEq itr Ti); [reflexivity|].
  intros F. now rewrite (IH F).
Qed.

Lemma lookup_app (Ti T : TaintInfo) (TL : list TaintInfo) :
  hasValue (lookup Ti TL) = true ->
  hasValue (lookup Ti (TL ++ [T])) = true.
Proof.
  unfold lookup. induction TL as [|itr rest IH]; [discriminate|].
  cbn [find app]. destruct (taintEq itr Ti); [reflexivity | exact IH].
Qed.

Lemma wfTaintList_app (TL : list TaintInfo) (T : TaintInfo) :
  wfTaintList TL = true -> overRegister T = true ->
  wfTaintList (TL ++ [T]) = true.
Proof.
  unfold wfTaintList. intros W O. rewrite forallb_app, W. cbn. now rewrite O.
Qed.

Lemma wfTaintList_erase (Ti : TaintInfo) (TL : list TaintInfo) :
  wfTaintList TL = true -> wfTaintList (erase Ti TL) = true.
Proof.
  unfold wfTaintList. induction TL as [|itr rest IH]; [reflexivity|].
  cbn [forallb erase]. intros W. apply andb_prop in W as [Wi Wr].
  destruct (taintEq itr Ti); [exact Wr|].
  cbn [forallb]. now rewrite Wi, IH.
Qed.

Lemma addToTaintList_register (Ti : TaintInfo) (TL : list TaintInfo) :
  overRegister Ti = true -> addToTaintList Ti TL = TL ++ [Ti].
Proof.
  unfold overRegister, addToTaintList.
  now destruct (Op Ti) as [[r|v]|].
Qed.

Lemma addToTaintList_wf (Ti : TaintInfo) (TL : list TaintInfo) :
  wfTaintList TL = true -> wfTaintList (addToTaintList Ti TL) = true.
Proof.
  intros W. unfold addToTaintList.
  destruct (Op Ti) as [[r|v]|] eqn:E; cbn [isImm negb]; try exact W.
  apply wfTaintList_app; [exact W|]. unfold overRegister. now rewrite E.
Qed.

(** ** The propagation step *)

Lemma descriptor_overRegister (mf : MachineFunction) (MO : MachineOperand)
    (off : option Z) :
  isImm MO = false -> overRegister (descriptor mf MO off) = true.
Proof.
  intros H. unfold overRegister. rewrite descriptor_Op.
  now destruct MO.
Qed.

Lemma wfSlots_slots (DS : DestSourcePair) :
  wfSlots DS = true ->
  slotOk (Destination DS) (DestOffset DS) = true
  /\ slotOk (Source DS) (SrcOffset DS) = true
  /\ slotOk (Source2 DS) (Src2Offset DS) = true.
Proof.
  unfold wfSlots. intros H.
  apply andb_prop in H as [H H3]. apply andb_prop in H as [H1 H2].
  now repeat split.
Qed.

Lemma wfPair_slots (DS : DestSourcePair) :
  wfPair DS = true ->
  slotOk (Destination DS) (DestOffset DS) = true
  /\ slotOk (Source DS) (SrcOffset DS) = true
  /\ slotOk (Source2 DS) (Src2Offset DS) = true
  /\ (forall Dest, Destination DS = Some Dest -> isImm Dest = false).
Proof.
  unfold wfPair. intros H. apply andb_prop in H as [H H4].
  destruct (wfSlots_slots DS H) as (H1 & H2 & H3).
  repeat split; try assumption.
  intros Dest E. rewrite E in H4. now apply negb_true_iff.
Qed.

(** C2: on a taint list that satisfies its invariant and a pair of the
    extractor whose first source is present whenever its destination is
    tainted, [propagateTaint] is the transition function [Propagate]:
    Terminate-Empty on the empty list; Continue with the list unchanged
    when there is no destination or the destination is not tainted;
    Terminate-Found with the matched entry removed when the first source is
    an immediate; otherwise Continue with the source descriptor inserted
    and the matched entry removed, the size being unchanged. *)
Theorem propagateTaint_transition (mf : MachineFunction) (MI : MachineInstr)
    (DS : DestSourcePair) (TA0 : TaintAnalysis) :
  wfTaintList (TaintList TA0) = true ->
  wfPair DS = true ->
  (destinationTainted mf DS (TaintList TA0) = true ->
   hasValue (Source DS) = true) ->
  let TL := TaintList TA0 in
  let p := fst (Propagate mf DS TL) in
  let TL' := snd (Propagate mf DS TL) in
  propagateTaint mf MI DS TA0
  = Done (propagated p,
          mkTaintAnalysis TL'
            (outs TA0 ++ match p with
                         | TerminateFound => blameReport mf MI
                         | _ => []
                         end))
  /\ (p = TerminateEmpty <-> TL = [])
  /\ (p = TerminateFound ->
      destinationTainted mf DS TL = true
      /\ (exists v, Source DS = Some (MO_Immediate v))
      /\ S (List.length TL') = List.length TL)
  /\ (p = Continue -> List.length TL' = List.length TL)
  /\ (destinationTainted mf DS TL = false -> TL' = TL)
  /\ wfTaintList TL' = true.
Proof.
  destruct TA0 as [TL out]. cbn [TaintList outs].
  intros W P HS. cbv zeta.
  destruct (wfPair_slots DS P) as (Pd & Ps & _ & Pi).
  destruct TL as [|T0 TL0].
  { cbn. repeat split; try discriminate; try reflexivity.
    now rewrite app_nil_r. }
  set (TL := T0 :: TL0) in *.
  unfold propagateTaint, Propagate, destinationTainted in *.
  cbn [TaintList outs] in *. subst TL. cbn [empty].
  rewrite (slotTaint_ok mf _ _ Ps), (slotTaint_ok mf _ _ Pd). cbn [bind].
  set (TL := T0 :: TL0) in *.
  destruct (Destination DS) as [Dest|] eqn:ED.
  2:{ cbn. rewrite app_nil_r.
      repeat split; try discriminate; try reflexivity; exact W. }
  rewrite descriptor_Op. cbn [hasValue negb].
  pose proof (descriptor_overRegister mf Dest (DestOffset DS) (Pi Dest eq_refl))
    as OD.
  set (DestTi := descriptor mf Dest (DestOffset DS)) in *.
  rewrite (isTainted_lookup DestTi TL W OD). cbn [bind].
  destruct (lookup DestTi TL) as [T|] eqn:EL.
  2:{ cbn. rewrite app_nil_r.
      repeat split; try discriminate; try reflexivity; exact W. }
  pose proof (lookup_overRegister _ _ _ W EL) as OT.
  assert (HT : hasValue (Op T) = true).
  { unfold overRegister in OT. now destruct (Op T). }
  rewrite HT.
  assert (F : hasValue (lookup DestTi TL) = true) by now rewrite EL.
  specialize (HS eq_refl).
  destruct (Source DS) as [[rs|v]|] eqn:ES; [| |discriminate HS];
    cbn [deref bind isImm fst snd propagated].
  - set (SrcTi := descriptor mf (MO_Register rs) (SrcOffset DS)).
    assert (OS : overRegister SrcTi = true)
      by now apply descriptor_overRegister.
    rewrite (addToTaintList_register _ _ OS).
    rewrite (removeFromTaintList_erase DestTi (TL ++ [SrcTi])
               (wfTaintList_app _ _ W OS) OD (lookup_app _ _ _ F)).
    cbn [bind]. rewrite app_nil_r.
    assert (L : List.length (erase DestTi (TL ++ [SrcTi])) = List.length TL).
    { rewrite (erase_app _ _ _ F), length_app. cbn [List.length].
      pose proof (erase_length DestTi TL F). lia. }
    split; [reflexivity|]. split; [split; discriminate|].
    split; [discriminate|]. split; [intros _; exact L|].
    split; [discriminate|].
    apply wfTaintList_erase, wfTaintList_app; assumption.
  - rewrite (removeFromTaintList_erase DestTi TL W OD F). cbn [bind].
    split; [reflexivity|]. split; [split; discriminate|].
    split; [|split; [discriminate|split; [discriminate|]]].
    + intros _. split; [reflexivity|]. split; [now exists v|].
      apply (erase_length DestTi TL F).
    + now apply wfTaintList_erase.
Qed.

Lemma propagateTaint_transition_witness :
  propagateTaint (X86.frame "main" []) X86.movRaxRbx
    (X86.pair (X86.reg X86.RAX) None (X86.reg X86.RBX) None)
    (mkTaintAnalysis [X86.taintOf X86.RAX; X86.taintOf X86.RCX] [])
  = Done (true, mkTaintAnalysis [X86.taintOf X86.RCX; X86.taintOf X86.RBX] []).
Proof.
  destruct (propagateTaint_transition (X86.frame "main" []) X86.movRaxRbx
              (X86.pair (X86.reg X86.RAX) None (X86.reg X86.RBX) None)
              (mkTaintAnalysis [X86.taintOf X86.RAX; X86.taintOf X86.RCX] [])
              eq_refl eq_refl (fun _ => eq_refl)) as [E _].
  exact E.
Defined.

(** C10: when the destination of a pair is found in the taint list and the
    pair has no first source operand, [propagateTaint] dereferences the
    null [DS.Source]: it neither continues nor skips. *)
Theorem propagateTaint_null_source (mf : MachineFunction) (MI : MachineInstr)
    (DS : DestSourcePair) (TA0 : TaintAnalysis) (DestTi Taint : TaintInfo) :
  Source DS = None ->
  slotTaint mf (Destination DS) (DestOffset DS) = Done DestTi ->
  hasValue (Op DestTi) = true ->
  isTainted DestTi (TaintList TA0) = Done Taint ->
  hasValue (Op Taint) = true ->
  propagateTaint mf MI DS TA0 = Abort NullDeref
  /\ forall r, propagateTaint mf MI DS TA0 <> Done r.
Proof.
  intros ES ED HD ET HT.
  assert (E : propagateTaint mf MI DS TA0 = Abort NullDeref).
  { unfold propagateTaint.
    destruct (TaintList TA0) as [|T0 TL0] eqn:ETL.
    { cbn in ET. injection ET as <-. discriminate HT. }
    cbn [empty]. rewrite ES.
    destruct (SrcOffset DS) as [d|]; [reflexivity|].
    rewrite slotTaint_absent, ED. cbn [bind]. rewrite HD. cbn [negb].
    rewrite ET. cbn [bind]. rewrite HT. reflexivity. }
  split; [exact E|]. intros r. rewrite E. discriminate.
Qed.

Lemma propagateTaint_null_source_witness :
  propagateTaint (X86.frame "main" []) X86.movRaxRbx X86.destOnly
    (mkTaintAnalysis [X86.taintOf X86.RAX] [])
  = Abort NullDeref.
Proof.
  destruct (propagateTaint_null_source (X86.frame "main" []) X86.movRaxRbx
              X86.destOnly (mkTaintAnalysis [X86.taintOf X86.RAX] [])
              (X86.taintOf X86.RAX) (X86.taintOf X86.RAX)
              eq_refl eq_refl eq_refl eq_refl eq_refl) as [E _].
  exact E.
Defined.

(** ** Seeding *)

(** C6 as stated fails on a crashing store of a constant: the first source
    operand is present, and only the destination is seeded. *)
Lemma startTaint_immediate_source_not_seeded :
  let DS := X86.pair (X86.reg X86.RAX) (Some 8) (X86.imm 0) None in
  hasValue (Source DS) = true
  /\ startTaint (X86.frame "main" []) X86.crashStoreImm DS newTaintAnalysis
     = Done (mkTaintAnalysis
               [mkTaintInfo (X86.reg X86.RAX) (Some 8) false 0] []).
Proof. split; reflexivity. Qed.

Lemma seedIf_add (MO : MachineOperand) (Ti : TaintInfo) (c : bool)
    (TL : list TaintInfo) :
  Op Ti = Some MO ->
  (if c then addToTaintList Ti TL else TL)
  = TL ++ seedIf (c && negb (isImm MO)) Ti.
Proof.
  intros E. unfold addToTaintList, seedIf. rewrite E.
  destruct c, (isImm MO); cbn; now rewrite ?app_nil_r.
Qed.

(** C6 (amended): on the empty taint list [startTaint] inserts the
    destination exactly when it is present, carries a displacement and is
    no immediate, and inserts the first and the second source exactly when
    they are present and no immediates, memory operands or not; on a
    non-empty taint list it seeds nothing and does what [propagateTaint]
    does to the taint list. *)
Theorem startTaint_seeds (mf : MachineFunction) (MI : MachineInstr)
    (DS : DestSourcePair) (TA0 : TaintAnalysis) :
  wfSlots DS = true ->
  (TaintList TA0 = [] ->
   startTaint mf MI DS TA0 = Done (mkTaintAnalysis (seeds mf DS) (outs TA0)))
  /\ (TaintList TA0 <> [] ->
      startTaint mf MI DS TA0
      = ('(_, TA') <- propagateTaint mf MI DS TA0 ;; Done TA')).
Proof.
  intros P. destruct (wfSlots_slots DS P) as (Pd & Ps & P2).
  unfold startTaint.
  rewrite (slotTaint_ok mf _ _ Ps), (slotTaint_ok mf _ _ Pd),
    (slotTaint_ok mf _ _ P2).
  cbn [bind]. split.
  - intros E. rewrite E. cbn [empty]. unfold seeds. do 2 f_equal.
    destruct (Destination DS) as [Dest|], (Source DS) as [Src|],
      (Source2 DS) as [Src2|];
      rewrite ?descriptor_Op, ?descriptor_Offset; cbn [Op Offset hasValue andb];
      rewrite ?(seedIf_add Src2 _ true _ (descriptor_Op mf Src2 _)),
        ?(seedIf_add Src _ true _ (descriptor_Op mf Src _)),
        ?(seedIf_add Dest _ _ _ (descriptor_Op mf Dest _));
      cbn [andb app]; rewrite ?app_nil_r, <- ?app_assoc; reflexivity.
  - intros NE. destruct (TaintList TA0) as [|T0 TL0] eqn:E; [now destruct NE|].
    cbn [empty].
    destruct (Destination DS) as [Dest|] eqn:ED.
    + rewrite descriptor_Op. reflexivity.
    + cbn [Op hasValue]. unfold propagateTaint. rewrite E. cbn [empty].
      rewrite (slotTaint_ok mf _ _ Ps), ED.
      destruct (DestOffset DS); [discriminate Pd|].
      rewrite slotTaint_absent. reflexivity.
Qed.

Lemma startTaint_seeds_witness :
  startTaint (X86.frame "main" []) X86.crashStore
    (X86.pair (X86.reg X86.RBP) (Some (-8)) (X86.reg X86.RBX) None)
    newTaintAnalysis
  = Done (mkTaintAnalysis
            [mkTaintInfo (X86.reg X86.RBP) (Some (-8)) true 2147221512;
             X86.taintOf X86.RBX] [])
  /\ startTaint (X86.frame "main" []) X86.movRaxZero
       (X86.pair (X86.reg X86.RAX) None (X86.imm 0) None)
       (mkTaintAnalysis [X86.taintOf X86.RAX; X86.taintOf X86.RBX] [])
     = Done (mkTaintAnalysis [X86.taintOf X86.RBX]
               [BlameFunctionIs "main"; WarnCompileWithG;
                BlameInstructionIs "mov rax, 0"]).
Proof.
  split.
  - destruct (startTaint_seeds (X86.frame "main" []) X86.crashStore
                (X86.pair (X86.reg X86.RBP) (Some (-8)) (X86.reg X86.RBX) None)
                newTaintAnalysis eq_refl) as [H _].
    exact (H eq_refl).
  - destruct (startTaint_seeds (X86.frame "main" []) X86.movRaxZero
                (X86.pair (X86.reg X86.RAX) None (X86.imm 0) None)
                (mkTaintAnalysis [X86.taintOf X86.RAX; X86.taintOf X86.RBX] [])
                eq_refl) as [_ H].
    rewrite H; [reflexivity | discriminate].
Defined.

(** Seeding establishes the invariant of the taint list. *)
Lemma seeds_wf (mf : MachineFunction) (DS : DestSourcePair) :
  wfTaintList (seeds mf DS) = true.
Proof.
  unfold seeds, wfTaintList. rewrite !forallb_app.
  assert (K : forall c MO off,
             forallb overRegister
               (seedIf (c && negb (isImm MO)) (descriptor mf MO off)) = true).
  { intros c MO off. destruct c, (isImm MO) eqn:E; try reflexivity.
    cbn. now rewrite descriptor_overRegister. }
  pose proof (fun MO off => K true MO off) as K2. cbn [andb] in K2.
  destruct (Destination DS) as [Dest|], (Source DS) as [Src|],
    (Source2 DS) as [Src2|];
    rewrite ?K, ?K2; reflexivity.
Qed.

(** ** The backward scan of one frame *)

(** What [scanBlock] does at an instruction past the crash point that is
    no call, branch, push or pop and has a pair. *)
Lemma scanInstr_propagates (mf : MachineFunction) (MI : MachineInstr)
    (DS : DestSourcePair) (st : ScanState) :
  CrashStart MI = false ->
  CrashSequenceStarted st = true ->
  isCall MI || isBranch MI = false ->
  isPushPop MI = false ->
  getDestAndSrc MI = Some DS ->
  scanInstr mf MI st
  = ('(TaintResult, TA') <- propagateTaint mf MI DS (TA st) ;;
     let st' := mkScanState true (if negb TaintResult then true else Result st)
                  TA' in
     if negb TaintResult && empty (TaintList TA')
     then Done (LoopReturn true, st')
     else Done (LoopContinue, st')).
Proof.
  intros C S B P G. unfold scanInstr. rewrite C, S, B, P, G. reflexivity.
Qed.

(** A push or pop past the crash point ends the loop over its block, and
    the loop over the blocks goes on with the block before it. *)
Lemma scanBlocks_pushpop (mf : MachineFunction) (MI : MachineInstr)
    (before : list MachineInstr) (earlier : list MachineBasicBlock)
    (st : ScanState) :
  CrashStart MI = false ->
  CrashSequenceStarted st = true ->
  isCall MI || isBranch MI = false ->
  isPushPop MI = true ->
  scanBlocks mf ((before ++ [MI]) :: earlier) st = scanBlocks mf earlier st.
Proof.
  intros C S B P. cbn [scanBlocks]. rewrite rev_app_distr. cbn [rev app scanBlock].
  unfold scanInstr. rewrite C, S, B, P. reflexivity.
Qed.

(** C3 on a frame of three blocks, [mov rax, 0], then [pop rbp], then the
    crashing [mov [rax+8], rbx]: the pop ends the loop over its own block
    only, and [mov rax, 0] of the block before it is still processed and
    blamed. *)
Theorem runOnBlameMF_scans_past_pushpop :
  Blocks X86.earlyExit = [[X86.movRaxZero]; [X86.popRbp]; [X86.crashStore]]
  /\ isPushPop X86.popRbp = true
  /\ runOnBlameMF X86.earlyExit newTaintAnalysis
     = Done (true,
             mkTaintAnalysis [X86.taintOf X86.RBX] X86.blameMovRaxZero).
Proof. repeat split. Qed.

(** C4 as stated fails when taint is left: in [residual] the step at
    [mov rax, 0] ends with Terminate-Found and [rbx] still tainted; the scan
    then processes [mov rbx, rcx], and the walk goes on into the next frame,
    which moves the taint from [rcx] to [rbx].  It also fails for the step
    that [startTaint] runs at the flagged instruction of an outer frame:
    in [callerZero] that step ends with Terminate-Found and an empty taint
    list, its result is dropped, and the walk returns failure. *)
Lemma found_with_residual_taint_goes_on :
  propagateTaint X86.residual X86.movRaxZero
    (X86.pair (X86.reg X86.RAX) None (X86.imm 0) None)
    (mkTaintAnalysis
       [mkTaintInfo (X86.reg X86.RAX) (Some 8) false 0; X86.taintOf X86.RBX] [])
  = Done (false, mkTaintAnalysis [X86.taintOf X86.RBX] X86.blameMovRaxZero)
  /\ runOnBlameMF X86.residual newTaintAnalysis
     = Done (true, mkTaintAnalysis [X86.taintOf X86.RCX] X86.blameMovRaxZero)
  /\ runOnBlameModule
       [mkBlameFunction "main" (Some X86.residual);
        mkBlameFunction "caller" (Some X86.caller)] newTaintAnalysis
     = Done (true, mkTaintAnalysis [X86.taintOf X86.RBX] X86.blameMovRaxZero)
  /\ propagateTaint Runs.callerZero Runs.crashMovRaxZero
       (X86.pair (X86.reg X86.RAX) None (X86.imm 0) None)
       (mkTaintAnalysis [mkTaintInfo (X86.reg X86.RAX) (Some 8) false 0] [])
     = Done (false, mkTaintAnalysis [] Runs.blameCallerZero)
  /\ runOnBlameModule
       [mkBlameFunction "main" (Some Runs.loadOnly);
        mkBlameFunction "caller" (Some Runs.callerZero)] newTaintAnalysis
     = Done (false, mkTaintAnalysis [] Runs.blameCallerZero).
Proof. repeat split. Qed.

(** Success, once recorded in [Result], is what the scan returns. *)
Lemma scanInstr_Result (mf : MachineFunction) (MI : MachineInstr)
    (st st' : ScanState) (ex : LoopExit) :
  Result st = true ->
  scanInstr mf MI st = Done (ex, st') ->
  Result st' = true /\ ex <> LoopReturn false.
Proof.
  intros R. unfold scanInstr.
  destruct (CrashStart MI).
  { destruct (getDestAndSrc MI) as [DS|].
    - destruct (startTaint mf MI DS (TA st)) as [T|f]; cbn [bind];
        [|discriminate].
      intros H; injection H as <- <-. now split.
    - intros H; injection H as <- <-. now split. }
  destruct (negb (CrashSequenceStarted st)).
  { intros H; injection H as <- <-. now split. }
  destruct (isCall MI || isBranch MI).
  { intros H; injection H as <- <-. now split. }
  destruct (isPushPop MI).
  { intros H; injection H as <- <-. now split. }
  destruct (getDestAndSrc MI) as [DS|].
  2:{ intros H; injection H as <- <-. now split. }
  destruct (propagateTaint mf MI DS (TA st)) as [[b T]|f]; cbn [bind];
    [|discriminate].
  rewrite R.
  destruct (negb b && empty (TaintList T));
    intros H; injection H as <- <-; cbn [Result]; split;
    try discriminate; now destruct b.
Qed.

Lemma scanBlock_Result (mf : MachineFunction) (MIs : list MachineInstr) :
  forall st st' ret,
    Result st = true ->
    scanBlock mf MIs st = Done (ret, st') ->
    Result st' = true /\ ret <> Some false.
Proof.
  induction MIs as [|MI rest IH]; intros st st' ret R; cbn [scanBlock].
  - intros H; injection H as <- <-. now split.
  - destruct (scanInstr mf MI st) as [[ex st1]|f] eqn:E; cbn [bind];
      [|discriminate].
    destruct (scanInstr_Result mf MI st st1 ex R E) as [R1 N].
    destruct ex as [| |b].
    + now apply IH.
    + intros H; injection H as <- <-. now split.
    + intros H; injection H as <- <-. split; [exact R1|].
      intros K; injection K as ->. now apply N.
Qed.

Lemma scanBlocks_Result (mf : MachineFunction)
    (MBBs : list MachineBasicBlock) :
  forall st b T,
    Result st = true -> scanBlocks mf MBBs st = Done (b, T) -> b = true.
Proof.
  induction MBBs as [|MBB rest IH]; intros st b T R; cbn [scanBlocks].
  - intros H; injection H as <- <-. exact R.
  - destruct (scanBlock mf (rev MBB) st) as [[ret st1]|f] eqn:E; cbn [bind];
      [|discriminate].
    destruct (scanBlock_Result mf (rev MBB) st st1 ret R E) as [R1 N].
    destruct ret as [[|]|].
    + intros H; now injection H as <- <-.
    + now destruct N.
    + now apply IH.
Qed.

Lemma walkFrames_Result (BM : BlameModule) :
  forall AnalysisStarted TA0 b T,
    walkFrames BM AnalysisStarted true TA0 = Done (b, T) -> b = true.
Proof.
  induction BM as [|BF rest IH]; intros s TA0 b T; cbn [walkFrames].
  - intros H; now injection H as <- <-.
  - destruct (negb s && startswith "_" (Name BF)); [apply IH|].
    destruct (MF BF) as [mf|]; [|intros H; now injection H as <- <-].
    destruct (runOnBlameMF mf TA0) as [[found T1]|f]; cbn [bind];
      [|discriminate].
    destruct found; [|apply IH].
    destruct (empty (TaintList T1)); [intros H; now injection H as <- <-|].
    apply IH.
Qed.

(** C4 (amended): let the scan of a frame run a propagation step at an
    instruction past the crash point, and let the step end the taint.  When
    the step leaves the taint list empty, the scan returns success at
    once, whatever instructions and blocks come earlier in the frame, and
    the walk returns success at once, whatever frames follow.  When the
    step leaves taint, the scan goes on with the instruction before it,
    with success recorded, so that it reports success whenever it returns.
    A frame scan that reports success ends the walk exactly when the taint
    list is then empty; otherwise the walk goes on with the next frame,
    with success recorded, and reports success whenever it returns. *)
Theorem found_concludes_or_goes_on (mf : MachineFunction) (MI : MachineInstr)
    (DS : DestSourcePair) (st : ScanState) (TA' : TaintAnalysis) :
  CrashStart MI = false ->
  CrashSequenceStarted st = true ->
  isCall MI || isBranch MI = false ->
  isPushPop MI = false ->
  getDestAndSrc MI = Some DS ->
  propagateTaint mf MI DS (TA st) = Done (false, TA') ->
  (TaintList TA' = [] ->
   (forall before earlier,
      scanBlocks mf ((before ++ [MI]) :: earlier) st = Done (true, TA'))
   /\ (forall BF rest AnalysisStarted Result0 TA0,
         MF BF = Some mf ->
         negb AnalysisStarted && startswith "_" (Name BF) = false ->
         runOnBlameMF mf TA0 = Done (true, TA') ->
         walkFrames (BF :: rest) AnalysisStarted Result0 TA0
         = Done (true, TA')))
  /\ (TaintList TA' <> [] ->
      (forall before earlier,
         scanBlocks mf ((before ++ [MI]) :: earlier) st
         = scanBlocks mf (before :: earlier) (mkScanState true true TA'))
      /\ (forall before earlier b T,
            scanBlocks mf ((before ++ [MI]) :: earlier) st = Done (b, T) ->
            b = true))
  /\ (forall BF rest AnalysisStarted Result0 TA0 T1,
        MF BF = Some mf ->
        negb AnalysisStarted && startswith "_" (Name BF) = false ->
        runOnBlameMF mf TA0 = Done (true, T1) ->
        walkFrames (BF :: rest) AnalysisStarted Result0 TA0
        = (if empty (TaintList T1) then Done (true, T1)
           else walkFrames rest true true T1)
        /\ (forall b T,
              walkFrames (BF :: rest) AnalysisStarted Result0 TA0
              = Done (b, T) ->
              b = true)).
Proof.
  intros C S B P G T.
  assert (Step : forall before earlier,
            scanBlocks mf ((before ++ [MI]) :: earlier) st
            = (if empty (TaintList TA') then Done (true, TA')
               else scanBlocks mf (before :: earlier)
                      (mkScanState true true TA'))).
  { intros before earlier. cbn [scanBlocks]. rewrite rev_app_distr.
    cbn [rev app scanBlock].
    rewrite (scanInstr_propagates mf MI DS st C S B P G), T.
    cbn [bind negb andb]. now destruct (empty (TaintList TA')). }
  assert (Walk : forall BF rest s R TA0 T1,
            MF BF = Some mf ->
            negb s && startswith "_" (Name BF) = false ->
            runOnBlameMF mf TA0 = Done (true, T1) ->
            walkFrames (BF :: rest) s R TA0
            = (if empty (TaintList T1) then Done (true, T1)
               else walkFrames rest true true T1)).
  { intros BF rest s R TA0 T1 M K F. cbn [walkFrames].
    rewrite K, M, F. cbn [bind]. now rewrite orb_true_r. }
  split; [|split].
  - intros E. split.
    + intros before earlier. rewrite Step, E. reflexivity.
    + intros BF rest s R TA0 M K F. rewrite (Walk BF rest s R TA0 TA' M K F).
      now rewrite E.
  - intros NE.
    assert (E : empty (TaintList TA') = false)
      by (destruct (TaintList TA'); [now destruct NE | reflexivity]).
    split.
    + intros before earlier. now rewrite Step, E.
    + intros before earlier b T0. rewrite Step, E.
      now apply scanBlocks_Result.
  - intros BF rest s R TA0 T1 M K F. split; [now apply Walk|].
    intros b T0. rewrite (Walk BF rest s R TA0 T1 M K F).
    destruct (empty (TaintList T1)); [intros H; now injection H as <- <-|].
    apply walkFrames_Result.
Qed.

Lemma found_concludes_or_goes_on_witness :
  (let st := mkScanState true false
               (mkTaintAnalysis
                  [mkTaintInfo (X86.reg X86.RAX) (Some 8) false 0] []) in
   scanBlocks X86.nullDeref [[X86.movRbxRcx] ++ [X86.movRaxZero]] st
   = Done (true, mkTaintAnalysis [] X86.blameMovRaxZero)
   /\ runOnBlameModule
        [mkBlameFunction "main" (Some X86.nullDeref);
         mkBlameFunction "caller" (Some X86.caller)] newTaintAnalysis
      = Done (true, mkTaintAnalysis [] X86.blameMovRaxZero))
  /\ (let st := mkScanState true false
                  (mkTaintAnalysis
                     [mkTaintInfo (X86.reg X86.RAX) (Some 8) false 0;
                      X86.taintOf X86.RBX] []) in
      scanBlocks X86.residual [[X86.movRbxRcx] ++ [X86.movRaxZero]] st
      = Done (true, mkTaintAnalysis [X86.taintOf X86.RCX] X86.blameMovRaxZero)
      /\ runOnBlameModule
           [mkBlameFunction "main" (Some X86.residual);
            mkBlameFunction "caller" (Some X86.caller)] newTaintAnalysis
         = Done (true,
                 mkTaintAnalysis [X86.taintOf X86.RBX] X86.blameMovRaxZero)).
Proof.
  split.
  - intros st.
    destruct (found_concludes_or_goes_on X86.nullDeref X86.movRaxZero
                (X86.pair (X86.reg X86.RAX) None (X86.imm 0) None) st
                (mkTaintAnalysis [] X86.blameMovRaxZero)
                eq_refl eq_refl eq_refl eq_refl eq_refl eq_refl)
      as [H _].
    destruct (H eq_refl) as [HF HM].
    split; [apply HF | apply HM; reflexivity].
  - intros st.
    destruct (found_concludes_or_goes_on X86.residual X86.movRaxZero
                (X86.pair (X86.reg X86.RAX) None (X86.imm 0) None) st
                (mkTaintAnalysis [X86.taintOf X86.RBX] X86.blameMovRaxZero)
                eq_refl eq_refl eq_refl eq_refl eq_refl eq_refl)
      as (_ & H & HW).
    destruct (H ltac:(discriminate)) as [HG _].
    split.
    + rewrite HG. reflexivity.
    + destruct (HW (mkBlameFunction "main" (Some X86.residual))
                  [mkBlameFunction "caller" (Some X86.caller)]
                  false false newTaintAnalysis
                  (mkTaintAnalysis [X86.taintOf X86.RCX] X86.blameMovRaxZero)
                  eq_refl eq_refl eq_refl) as [HE _].
      unfold runOnBlameModule. rewrite HE. reflexivity.
Defined.

(** ** The walk over the crash trace *)

Lemma walkFrames_started (BM : BlameModule) :
  forall Result0 TA0,
    walkFrames BM true Result0 TA0 = scanFrames BM Result0 TA0.
Proof.
  induction BM as [|BF rest IH]; intros R TA0; [reflexivity|].
  cbn [walkFrames scanFrames negb andb].
  destruct (MF BF) as [mf|]; [|reflexivity].
  destruct (runOnBlameMF mf TA0) as [[found TA']|f]; [|reflexivity].
  cbn [bind]. destruct found; [|apply IH].
  destruct (empty (TaintList TA')); [reflexivity|].
  rewrite orb_true_r. apply IH.
Qed.

Lemma walkFrames_dropStartup (BM : BlameModule) :
  forall Result0 TA0,
    walkFrames BM false Result0 TA0 = scanFrames (dropStartup BM) Result0 TA0.
Proof.
  induction BM as [|BF rest IH]; intros R TA0; [reflexivity|].
  cbn [walkFrames dropStartup negb andb].
  destruct (startswith "_" (Name BF)); [apply IH|].
  cbn [scanFrames].
  destruct (MF BF) as [mf|]; [|reflexivity].
  destruct (runOnBlameMF mf TA0) as [[found TA']|f]; [|reflexivity].
  cbn [bind]. rewrite !walkFrames_started, orb_true_r. reflexivity.
Qed.

Lemma dropStartup_split (BM : BlameModule) :
  exists pre,
    BM = pre ++ dropStartup BM
    /\ forallb (fun BF => startswith "_" (Name BF)) pre = true
    /\ match dropStartup BM with
       | BF :: _ => startswith "_" (Name BF) = false
       | [] => True
       end.
Proof.
  induction BM as [|BF rest (pre & E & A & H)].
  - exists []. now repeat split.
  - cbn [dropStartup]. destruct (startswith "_" (Name BF)) eqn:S.
    + exists (BF :: pre). cbn [app forallb]. rewrite S, A, <- E. now repeat split.
    + exists []. now repeat split.
Qed.

Lemma scanFrames_names (BM : BlameModule) :
  forall BM' Result0 TA0,
    map MF BM' = map MF BM ->
    scanFrames BM' Result0 TA0 = scanFrames BM Result0 TA0.
Proof.
  induction BM as [|BF rest IH]; intros [|BF' rest'] R TA0 E;
    try discriminate E; [reflexivity|].
  cbn [map] in E. injection E as E1 E2.
  cbn [scanFrames]. rewrite E1.
  destruct (MF BF) as [mf|]; [|reflexivity].
  destruct (runOnBlameMF mf TA0) as [[found TA']|f]; [|reflexivity].
  cbn [bind]. now rewrite !(IH rest' _ _ E2).
Qed.

(** C8: the walk skips exactly the leading frames whose name begins with
    an underscore and handles the frames from the first other name on
    without looking at their names again; of [_start],
    [__libc_start_main], [main] the first frame scanned is [main]. *)
Theorem runOnBlameModule_skips_startup (BM : BlameModule)
    (TA0 : TaintAnalysis) :
  runOnBlameModule BM TA0 = scanFrames (dropStartup BM) false TA0
  /\ (exists pre,
        BM = pre ++ dropStartup BM
        /\ forallb (fun BF => startswith "_" (Name BF)) pre = true
        /\ match dropStartup BM with
           | BF :: _ => startswith "_" (Name BF) = false
           | [] => True
           end)
  /\ (forall BM',
        map MF BM' = map MF (dropStartup BM) ->
        scanFrames BM' false TA0 = scanFrames (dropStartup BM) false TA0)
  /\ (forall m1 m2 m3 later,
        dropStartup
          (mkBlameFunction "_start" m1
           :: mkBlameFunction "__libc_start_main" m2
           :: mkBlameFunction "main" m3 :: later)
        = mkBlameFunction "main" m3 :: later).
Proof.
  split; [apply walkFrames_dropStartup|].
  split; [apply dropStartup_split|].
  split; [intros BM' E; now apply scanFrames_names | reflexivity].
Qed.

Lemma walkFrames_missing (pre : BlameModule) (BF : BlameFunction)
    (rest : BlameModule) :
  MF BF = None ->
  forall AnalysisStarted Result0 TA0,
    AnalysisStarted = true
    \/ existsb (fun F => negb (startswith "_" (Name F))) (pre ++ [BF]) = true ->
    walkFrames (pre ++ BF :: rest) AnalysisStarted Result0 TA0
    = walkFrames pre AnalysisStarted Result0 TA0.
Proof.
  intros M. induction pre as [|F pre IH]; intros s R TA0 H.
  - cbn [app walkFrames]. rewrite M.
    destruct H as [->|H]; [reflexivity|].
    cbn in H. rewrite orb_false_r in H. apply negb_true_iff in H.
    rewrite H, andb_false_r. reflexivity.
  - cbn [app walkFrames].
    destruct (negb s && startswith "_" (Name F)) eqn:K.
    + apply IH. right. destruct H as [->|H]; [discriminate K|].
      apply andb_prop in K as [_ K]. cbn in H. now rewrite K in H.
    + destruct (MF F) as [mf|]; [|reflexivity].
      destruct (runOnBlameMF mf TA0) as [[found TA']|f]; [|reflexivity].
      cbn [bind]. now rewrite !IH by now left.
Qed.

(** C9: a considered frame without a lifted function ends the walk with
    the result of the frames before it; the frame and the frames after it
    have no influence, and the walk returns as it does at the end of the
    trace. *)
Theorem missing_frame_ends_walk (pre : BlameModule) (BF : BlameFunction)
    (rest : BlameModule) (TA0 : TaintAnalysis) :
  MF BF = None ->
  existsb (fun F => negb (startswith "_" (Name F))) (pre ++ [BF]) = true ->
  runOnBlameModule (pre ++ BF :: rest) TA0 = runOnBlameModule pre TA0
  /\ (forall AnalysisStarted Result0 TA1,
        negb AnalysisStarted && startswith "_" (Name BF) = false ->
        walkFrames (BF :: rest) AnalysisStarted Result0 TA1
        = Done (Result0, TA1)).
Proof.
  intros M H. split.
  - unfold runOnBlameModule. apply walkFrames_missing; [exact M | now right].
  - intros s R TA1 K. cbn [walkFrames]. now rewrite K, M.
Qed.

Lemma missing_frame_ends_walk_witness :
  runOnBlameModule
    [mkBlameFunction "_start" None;
     mkBlameFunction "main" (Some X86.residual);
     mkBlameFunction "lost" None;
     mkBlameFunction "caller" (Some X86.caller)] newTaintAnalysis
  = Done (true, mkTaintAnalysis [X86.taintOf X86.RCX] X86.blameMovRaxZero).
Proof.
  destruct (missing_frame_ends_walk
              [mkBlameFunction "_start" None;
               mkBlameFunction "main" (Some X86.residual)]
              (mkBlameFunction "lost" None)
              [mkBlameFunction "caller" (Some X86.caller)]
              newTaintAnalysis eq_refl eq_refl) as [E _].
  cbn [app] in E. rewrite E. reflexivity.
Defined.

(** * Further properties of the code *)

(** ** The comparison is an equivalence *)

(** X1: wherever [operator==] returns, it is symmetric and transitive, and
    a descriptor over a register equals itself. *)
Theorem operator_eq_equivalence (A B C : TaintInfo) :
  (overRegister A = true -> operator_eq A A = Done true)
  /\ (forall b, operator_eq A B = Done b -> operator_eq B A = Done b)
  /\ (operator_eq A B = Done true -> operator_eq B C = Done true ->
      operator_eq A C = Done true).
Proof.
  unfold operator_eq, overRegister, IsTaintMemAddr, GetTaintMemAddr.
  split; [|split].
  - destruct (Op A) as [[r|v]|]; try discriminate. intros _.
    destruct (IsConcreteMemory A); cbn.
    + now rewrite Z.eqb_refl.
    + now rewrite N.eqb_refl.
  - intros b.
    destruct (IsConcreteMemory A), (IsConcreteMemory B); cbn;
      try (intros H; exact H).
    + now rewrite Z.eqb_sym.
    + destruct (Op A) as [[ra|va]|], (Op B) as [[rb|vb]|]; cbn;
        try discriminate.
      now rewrite N.eqb_sym.
  - destruct (IsConcreteMemory A), (IsConcreteMemory B),
      (IsConcreteMemory C); cbn; try discriminate.
    + intros H1 H2. injection H1 as H1. injection H2 as H2.
      apply Z.eqb_eq in H1, H2. f_equal. apply Z.eqb_eq. congruence.
    + destruct (Op A) as [[ra|va]|], (Op B) as [[rb|vb]|],
        (Op C) as [[rc|vc]|]; cbn; try discriminate.
      destruct (ra =? rb)%N eqn:E1; cbn; try discriminate.
      destruct (rb =? rc)%N eqn:E2; cbn; try discriminate.
      apply N.eqb_eq in E1, E2. subst. now rewrite N.eqb_refl.
Qed.

Lemma operator_eq_equivalence_witness :
  operator_eq (X86.taintOf X86.RAX) (X86.taintOf X86.RAX) = Done true
  /\ operator_eq (X86.taintOf X86.RBX) Runs.slotRbp = Done false
  /\ operator_eq (mkTaintInfo (X86.reg X86.RAX) (Some 8) false 0)
       (mkTaintInfo (X86.reg X86.RAX) (Some 16) false 0) = Done true.
Proof.
  split; [|split].
  - destruct (operator_eq_equivalence (X86.taintOf X86.RAX)
                (X86.taintOf X86.RAX) (X86.taintOf X86.RAX)) as [H _].
    exact (H eq_refl).
  - destruct (operator_eq_equivalence Runs.slotRbp (X86.taintOf X86.RBX)
                (X86.taintOf X86.RBX)) as (_ & H & _).
    exact (H false eq_refl).
  - destruct (operator_eq_equivalence
                (mkTaintInfo (X86.reg X86.RAX) (Some 8) false 0)
                (X86.taintOf X86.RAX)
                (mkTaintInfo (X86.reg X86.RAX) (Some 16) false 0))
      as (_ & _ & H).
    exact (H eq_refl eq_refl).
Defined.

(** ** Resolution and comparison together *)

Lemma descriptor_register (mf : MachineFunction) (r : Register)
    (off : option Z) :
  descriptor mf (MO_Register r) off
  = match off with
    | Some d =>
        if trusted mf r
        then mkTaintInfo (Some (MO_Register r)) off true (address mf r d)
        else mkTaintInfo (Some (MO_Register r)) off false 0
    | None => mkTaintInfo (Some (MO_Register r)) off false 0
    end.
Proof. destruct off; reflexivity. Qed.

(** X2: the descriptors that [propagateTaint] and [startTaint] build for
    two register slots compare by address when both carry a displacement
    over a trusted register, whatever the two registers are; by register
    number when neither does; and are unequal otherwise. *)
Theorem slotTaint_compare (mf : MachineFunction) (r1 r2 : Register)
    (o1 o2 : option Z) :
  exists A B,
    slotTaint mf (Some (MO_Register r1)) o1 = Done A
    /\ slotTaint mf (Some (MO_Register r2)) o2 = Done B
    /\ IsConcreteMemory A = resolves mf r1 o1
    /\ IsConcreteMemory B = resolves mf r2 o2
    /\ operator_eq A B
       = Done (match o1, o2 with
               | Some d1, Some d2 =>
                   if trusted mf r1 && trusted mf r2
                   then address mf r1 d1 =? address mf r2 d2
                   else if trusted mf r1 || trusted mf r2 then false
                   else (r1 =? r2)%N
               | Some _, None => negb (trusted mf r1) && (r1 =? r2)%N
               | None, Some _ => negb (trusted mf r2) && (r1 =? r2)%N
               | None, None => (r1 =? r2)%N
               end).
Proof.
  exists (descriptor mf (MO_Register r1) o1),
    (descriptor mf (MO_Register r2) o2).
  rewrite !slotTaint_present, !descriptor_register. unfold resolves.
  do 2 (split; [reflexivity|]).
  destruct o1 as [d1|], o2 as [d2|];
    destruct (trusted mf r1), (trusted mf r2); cbn;
    repeat split; try reflexivity; now destruct (r1 =? r2)%N.
Qed.

(** X3: [calculateMemAddr] keeps operand and displacement, gives the same
    descriptor when run again on its result, and keeps the address within
    64 bits. *)
Theorem calculateMemAddr_again (mf : MachineFunction) (Ti Ti' : TaintInfo) :
  calculateMemAddr mf Ti = Done Ti' ->
  Op Ti' = Op Ti /\ Offset Ti' = Offset Ti
  /\ calculateMemAddr mf Ti' = Done Ti'
  /\ (0 <= ConcreteMemoryAddress Ti < 2 ^ 64 ->
      0 <= ConcreteMemoryAddress Ti' < 2 ^ 64).
Proof.
  unfold calculateMemAddr.
  destruct (Op Ti) as [[r|v]|] eqn:EO; cbn [deref bind isImm orb];
    [| |discriminate].
  - destruct (Offset Ti) as [d|] eqn:EF; cbn [hasValue negb deref bind getReg].
    + set (RegName := lower (getRegAsmName mf r)).
      set (RegValue := getRegValueFromCrash mf RegName).
      destruct ((RegValue =? "")%string
                || (negb (RegName =? "rsp")%string
                    && negb (RegName =? "rbp")%string)) eqn:E;
        intros H; injection H as <-;
        cbn [Op Offset ConcreteMemoryAddress deref bind isImm orb hasValue
             negb getReg];
        fold RegName; fold RegValue; rewrite E;
        (split; [reflexivity|]); (split; [reflexivity|]);
        (split; [reflexivity|]).
      * intros H. exact H.
      * intros _. apply Z.mod_pos_bound. lia.
    + intros H; injection H as <-. rewrite EO, EF. cbn [deref bind isImm orb hasValue negb].
      now repeat (split; [reflexivity|]).
  - intros H; injection H as <-. rewrite EO. cbn [deref bind isImm orb].
    now repeat (split; [reflexivity|]).
Qed.

Lemma calculateMemAddr_again_witness :
  calculateMemAddr (X86.frame "main" []) Runs.slotRbp = Done Runs.slotRbp.
Proof.
  destruct (calculateMemAddr_again (X86.frame "main" [])
              (mkTaintInfo (X86.reg X86.RBP) (Some (-8)) false 0)
              Runs.slotRbp eq_refl) as (_ & _ & H & _).
  exact H.
Defined.

(** ** Lookup and removal *)

Lemma removeFromTaintList_length (Ti : TaintInfo) (TL : list TaintInfo) :
  forall TL',
    removeFromTaintList Ti TL = Done TL' ->
    S (List.length TL') = List.length TL.
Proof.
  induction TL as [|itr rest IH]; intros TL'; cbn [removeFromTaintList];
    [discriminate|].
  destruct (operator_ne itr Ti) as [[|]|f]; cbn [bind]; [| |discriminate].
  - destruct (removeFromTaintList Ti rest) as [r|f]; cbn [bind];
      [|discriminate].
    intros H; injection H as <-. cbn [List.length]. now rewrite (IH r).
  - intros H; now injection H as <-.
Qed.

Lemma removeFromTaintList_wf (Ti : TaintInfo) (TL : list TaintInfo) :
  forall TL',
    wfTaintList TL = true ->
    removeFromTaintList Ti TL = Done TL' ->
    wfTaintList TL' = true.
Proof.
  unfold wfTaintList.
  induction TL as [|itr rest IH]; intros TL' W; cbn [removeFromTaintList];
    [discriminate|].
  cbn [forallb] in W. apply andb_prop in W as [Wi Wr].
  destruct (operator_ne itr Ti) as [[|]|f]; cbn [bind]; [| |discriminate].
  - destruct (removeFromTaintList Ti rest) as [r|f]; cbn [bind];
      [|discriminate].
    intros H; injection H as <-. cbn [forallb]. now rewrite Wi, (IH r).
  - intros H; now injection H as <-.
Qed.

(** X4: on a taint list of register descriptors [isTainted] returns the
    first entry equal to the descriptor asked for and
    [removeFromTaintList] erases that very entry; when no entry is equal,
    [isTainted] returns the empty sentinel and [removeFromTaintList]
    reaches [llvm_unreachable]. *)
Theorem isTainted_first_match (Ti : TaintInfo) (TL : list TaintInfo) :
  wfTaintList TL = true ->
  overRegister Ti = true ->
  (isTainted Ti TL = Done Empty_op
   /\ (forall x, In x TL -> operator_eq x Ti = Done false)
   /\ removeFromTaintList Ti TL = Abort Unreachable)
  \/ (exists l1 T l2,
        TL = l1 ++ T :: l2
        /\ isTainted Ti TL = Done T
        /\ Op T <> None
        /\ operator_eq T Ti = Done true
        /\ (forall x, In x l1 -> operator_eq x Ti = Done false)
        /\ removeFromTaintList Ti TL = Done (l1 ++ l2)).
Proof.
  intros W O. induction TL as [|itr rest IH].
  - left. repeat split. intros x [].
  - cbn in W. apply andb_prop in W as [Wi Wr].
    pose proof (operator_eq_taintEq itr Ti Wi O) as E.
    cbn [isTainted removeFromTaintList]. unfold operator_ne. rewrite E.
    cbn [bind]. destruct (taintEq itr Ti) eqn:K; cbn [negb].
    + right. exists [], itr, rest. cbn [app]. repeat split; try assumption.
      * unfold overRegister in Wi. now destruct (Op itr).
      * intros x [].
    + destruct (IH Wr) as [(I & N & R)|(l1 & T & l2 & -> & I & OT & ET & N & R)].
      * left. rewrite I, R. repeat split.
        intros x [<-|H]; [exact E | now apply N].
      * right. exists (itr :: l1), T, l2. rewrite I, R. cbn [app bind].
        repeat split; try assumption.
        intros x [<-|H]; [exact E | now apply N].
Qed.

Lemma isTainted_first_match_witness :
  isTainted (X86.taintOf X86.RBX)
    [X86.taintOf X86.RAX; X86.taintOf X86.RBX; X86.taintOf X86.RBX]
  = Done (X86.taintOf X86.RBX)
  /\ removeFromTaintList (X86.taintOf X86.RBX)
       [X86.taintOf X86.RAX; X86.taintOf X86.RBX; X86.taintOf X86.RBX]
     = Done [X86.taintOf X86.RAX; X86.taintOf X86.RBX]
  /\ removeFromTaintList (X86.taintOf X86.RCX) [X86.taintOf X86.RAX]
     = Abort Unreachable.
Proof.
  split; [|split].
  - destruct (isTainted_first_match (X86.taintOf X86.RBX)
                [X86.taintOf X86.RAX; X86.taintOf X86.RBX; X86.taintOf X86.RBX]
                eq_refl eq_refl) as [(I & _)|(l1 & T & l2 & _ & I & _)];
      [vm_compute in I; discriminate I|].
    transitivity (Done T); [exact I|]. rewrite <- I. reflexivity.
  - destruct (isTainted_first_match (X86.taintOf X86.RBX)
                [X86.taintOf X86.RAX; X86.taintOf X86.RBX; X86.taintOf X86.RBX]
                eq_refl eq_refl)
      as [(I & _)|(l1 & T & l2 & _ & _ & _ & _ & _ & R)];
      [vm_compute in I; discriminate I|].
    transitivity (Done (l1 ++ l2)); [exact R|]. rewrite <- R. reflexivity.
  - destruct (isTainted_first_match (X86.taintOf X86.RCX)
                [X86.taintOf X86.RAX] eq_refl eq_refl)
      as [(_ & _ & R)|(l1 & T & l2 & _ & _ & _ & _ & _ & R)];
      [exact R | vm_compute in R; discriminate R].
Defined.

Lemma taintEq_refl (Ti : TaintInfo) :
  overRegister Ti = true -> taintEq Ti Ti = true.
Proof.
  unfold overRegister, taintEq, regOf.
  destruct (Op Ti) as [[r|v]|]; try discriminate. intros _.
  destruct (IsConcreteMemory Ti); [apply Z.eqb_refl | apply N.eqb_refl].
Qed.

Lemma erase_app_fresh (Ti : TaintInfo) (TL : list TaintInfo) :
  taintEq Ti Ti = true ->
  lookup Ti TL = None -> erase Ti (TL ++ [Ti]) = TL.
Proof.
  intros R. unfold lookup. induction TL as [|itr rest IH]; cbn [find erase app].
  - now rewrite R.
  - destruct (taintEq itr Ti); [discriminate|]. intros F. now rewrite IH.
Qed.

Lemma lookup_app_self (Ti : TaintInfo) (TL : list TaintInfo) :
  taintEq Ti Ti = true -> hasValue (lookup Ti (TL ++ [Ti])) = true.
Proof.
  intros R. unfold lookup. induction TL as [|itr rest IH]; cbn [find app].
  - now rewrite R.
  - now destruct (taintEq itr Ti).
Qed.

Lemma lookup_split (Ti T : TaintInfo) (TL : list TaintInfo) :
  lookup Ti TL = Some T ->
  exists l1 l2,
    TL = l1 ++ T :: l2
    /\ (forall x, In x l1 -> taintEq x Ti = false)
    /\ taintEq T Ti = true
    /\ erase Ti TL = l1 ++ l2.
Proof.
  unfold lookup. induction TL as [|itr rest IH]; [discriminate|].
  cbn [find erase]. destruct (taintEq itr Ti) eqn:K.
  - intros H; injection H as <-. exists [], rest. cbn [app].
    repeat split; try assumption. intros x [].
  - intros F. destruct (IH F) as (l1 & l2 & -> & N & E & R).
    exists (itr :: l1), l2. cbn [app]. rewrite R.
    repeat split; try assumption.
    intros x [<-|H]; [exact K | now apply N].
Qed.

(** X5: a register descriptor that has just been added is found tainted.
    Removing it again gives back the list as it was when the list held no
    equal entry before.  When it held one, the removal erases the first,
    that is the oldest, equal entry [T] and keeps the descriptor just added
    at the end of the list, where it is still found tainted. *)
Theorem addToTaintList_then_remove (Ti : TaintInfo) (TL : list TaintInfo) :
  wfTaintList TL = true ->
  overRegister Ti = true ->
  (exists T, isTainted Ti (addToTaintList Ti TL) = Done T /\ Op T <> None)
  /\ (isTainted Ti TL = Done Empty_op ->
      removeFromTaintList Ti (addToTaintList Ti TL) = Done TL)
  /\ (forall T, isTainted Ti TL = Done T -> Op T <> None ->
      exists l1 l2,
        TL = l1 ++ T :: l2
        /\ (forall x, In x l1 -> operator_eq x Ti = Done false)
        /\ operator_eq T Ti = Done true
        /\ removeFromTaintList Ti (addToTaintList Ti TL)
           = Done (l1 ++ l2 ++ [Ti])
        /\ exists T',
             isTainted Ti (l1 ++ l2 ++ [Ti]) = Done T' /\ Op T' <> None).
Proof.
  intros W O.
  pose proof (taintEq_refl Ti O) as R.
  pose proof (wfTaintList_app TL Ti W O) as W1.
  rewrite (addToTaintList_register Ti TL O).
  assert (Found : forall l, wfTaintList l = true ->
            hasValue (lookup Ti l) = true ->
            exists T, isTainted Ti l = Done T /\ Op T <> None).
  { intros l Wl F. rewrite (isTainted_lookup Ti l Wl O).
    destruct (lookup Ti l) as [T|] eqn:E; [|discriminate F].
    exists T. split; [reflexivity|].
    pose proof (lookup_overRegister _ _ _ Wl E) as OT.
    unfold overRegister in OT. now destruct (Op T). }
  split; [|split].
  - apply Found; [exact W1 | now apply lookup_app_self].
  - rewrite (isTainted_lookup Ti TL W O).
    destruct (lookup Ti TL) as [T|] eqn:E.
    + intros H. injection H as ->.
      pose proof (lookup_overRegister _ _ _ W E) as OT. discriminate OT.
    + intros _.
      rewrite (removeFromTaintList_erase Ti _ W1 O (lookup_app_self Ti TL R)).
      now rewrite erase_app_fresh.
  - intros T. rewrite (isTainted_lookup Ti TL W O).
    destruct (lookup Ti TL) as [T0|] eqn:E;
      [|intros H; injection H as <-; intros N; now destruct N].
    intros H _. injection H as ->.
    assert (F : hasValue (lookup Ti TL) = true) by now rewrite E.
    destruct (lookup_split Ti T TL E) as (l1 & l2 & D & N & K & Er).
    assert (In_wf : forall x, In x TL -> overRegister x = true).
    { unfold wfTaintList in W. rewrite forallb_forall in W. exact W. }
    exists l1, l2. split; [exact D|]. split; [|split; [|split]].
    + intros x I. rewrite operator_eq_taintEq; [|apply In_wf|exact O].
      * now rewrite (N x I).
      * rewrite D. apply in_or_app. now left.
    + rewrite operator_eq_taintEq; [now rewrite K| |exact O].
      apply In_wf. rewrite D. apply in_or_app. right. now left.
    + rewrite (removeFromTaintList_erase Ti _ W1 O (lookup_app _ _ _ F)).
      rewrite (erase_app _ _ _ F), Er, <- app_assoc. reflexivity.
    + rewrite app_assoc, <- Er. apply Found.
      * apply wfTaintList_app; [now apply wfTaintList_erase | exact O].
      * now apply lookup_app_self.
Qed.

Lemma addToTaintList_then_remove_witness :
  removeFromTaintList (X86.taintOf X86.RBX)
    (addToTaintList (X86.taintOf X86.RBX) [X86.taintOf X86.RAX])
  = Done [X86.taintOf X86.RAX]
  /\ removeFromTaintList (X86.taintOf X86.RAX)
       (addToTaintList (X86.taintOf X86.RAX)
          [X86.taintOf X86.RBX;
           mkTaintInfo (X86.reg X86.RAX) (Some 8) false 0;
           X86.taintOf X86.RCX])
     = Done [X86.taintOf X86.RBX; X86.taintOf X86.RCX; X86.taintOf X86.RAX].
Proof.
  split.
  - destruct (addToTaintList_then_remove (X86.taintOf X86.RBX)
                [X86.taintOf X86.RAX] eq_refl eq_refl) as (_ & H & _).
    exact (H eq_refl).
  - destruct (addToTaintList_then_remove (X86.taintOf X86.RAX)
                [X86.taintOf X86.RBX;
                 mkTaintInfo (X86.reg X86.RAX) (Some 8) false 0;
                 X86.taintOf X86.RCX] eq_refl eq_refl) as (_ & _ & H).
    destruct (H (mkTaintInfo (X86.reg X86.RAX) (Some 8) false 0)
                eq_refl ltac:(discriminate))
      as (l1 & l2 & D & _ & _ & Rm & _).
    rewrite Rm. rewrite <- Rm. reflexivity.
Defined.

(** ** What a propagation step can do to the analysis *)

Lemma propagateTaint_inv (mf : MachineFunction) (MI : MachineInstr)
    (DS : DestSourcePair) (TA0 TA' : TaintAnalysis) (b : bool) :
  propagateTaint mf MI DS TA0 = Done (b, TA') ->
  (b = false /\ TaintList TA0 = [] /\ TA' = TA0)
  \/ (b = true /\ TaintList TA0 <> [] /\ TA' = TA0)
  \/ (b = false /\ TaintList TA0 <> []
      /\ outs TA' = outs TA0 ++ blameReport mf MI
      /\ exists DestTi,
           removeFromTaintList DestTi (TaintList TA0) = Done (TaintList TA'))
  \/ (b = true /\ outs TA' = outs TA0
      /\ exists DestTi SrcTi,
           overRegister SrcTi = true
           /\ removeFromTaintList DestTi (TaintList TA0 ++ [SrcTi])
              = Done (TaintList TA')).
Proof.
  unfold propagateTaint.
  destruct (TaintList TA0) as [|T0 TL0] eqn:ETL; cbn [empty].
  { intros H; injection H as <- <-. now left. }
  rewrite <- ETL.
  assert (NE : TaintList TA0 <> []) by now rewrite ETL.
  destruct (slotTaint mf (Source DS) (SrcOffset DS)) as [SrcTi|f] eqn:ES;
    cbn [bind]; [|discriminate].
  destruct (slotTaint mf (Destination DS) (DestOffset DS)) as [DestTi|f];
    cbn [bind]; [|discriminate].
  destruct (hasValue (Op DestTi)); cbn [negb].
  2:{ intros H; injection H as <- <-. right; left. now repeat split. }
  destruct (isTainted DestTi (TaintList TA0)) as [Taint|f]; cbn [bind];
    [|discriminate].
  destruct (hasValue (Op Taint)).
  2:{ intros H; injection H as <- <-. right; left. now repeat split. }
  destruct (Source DS) as [Src|] eqn:ESrc; cbn [deref bind]; [|discriminate].
  destruct (isImm Src) eqn:EI.
  - destruct (removeFromTaintList DestTi (TaintList TA0)) as [TL|f] eqn:ER;
      cbn [bind]; [|discriminate].
    intros H; injection H as <- <-. right; right; left.
    cbn [TaintList outs]. repeat split; try assumption. now exists DestTi.
  - rewrite slotTaint_present in ES. injection ES as <-.
    pose proof (descriptor_overRegister mf Src (SrcOffset DS) EI) as OS.
    rewrite (addToTaintList_register _ _ OS).
    destruct (removeFromTaintList DestTi
                (TaintList TA0 ++ [descriptor mf Src (SrcOffset DS)]))
      as [TL|f] eqn:ER; cbn [bind]; [|discriminate].
    intros H; injection H as <- <-. right; right; right.
    cbn [TaintList outs]. repeat split.
    exists DestTi, (descriptor mf Src (SrcOffset DS)). now split.
Qed.

(** X6: whenever [propagateTaint] returns, for any pair and any taint
    list: with [false] it either found the list empty and changed nothing,
    or removed exactly one entry and wrote the blame report; with [true]
    the size of the list is what it was and nothing was written. *)
Theorem propagateTaint_accounts (mf : MachineFunction) (MI : MachineInstr)
    (DS : DestSourcePair) (TA0 TA' : TaintAnalysis) (b : bool) :
  propagateTaint mf MI DS TA0 = Done (b, TA') ->
  (b = false ->
   (TaintList TA0 = [] /\ TA' = TA0)
   \/ (S (List.length (TaintList TA')) = List.length (TaintList TA0)
       /\ outs TA' = outs TA0 ++ blameReport mf MI))
  /\ (b = true ->
      List.length (TaintList TA') = List.length (TaintList TA0)
      /\ outs TA' = outs TA0).
Proof.
  intros H.
  destruct (propagateTaint_inv mf MI DS TA0 TA' b H)
    as [(-> & E & ->)|[(-> & _ & ->)|[(-> & _ & O & D & R)|(-> & O & D & S0 & _ & R)]]];
    (split; [intros K | intros K]); try discriminate K.
  - now left.
  - now split.
  - right. split; [|exact O]. apply (removeFromTaintList_length _ _ _ R).
  - split; [|exact O].
    apply removeFromTaintList_length in R. rewrite length_app in R.
    cbn [List.length] in R. lia.
Qed.

Lemma propagateTaint_accounts_witness :
  let TA1 := mkTaintAnalysis [X86.taintOf X86.RBX] X86.blameMovRaxZero in
  S (List.length (TaintList TA1)) = 2%nat
  /\ outs TA1 = [] ++ blameReport X86.residual X86.movRaxZero.
Proof.
  intros TA1.
  destruct (propagateTaint_accounts X86.residual X86.movRaxZero
              (X86.pair (X86.reg X86.RAX) None (X86.imm 0) None)
              (mkTaintAnalysis
                 [mkTaintInfo (X86.reg X86.RAX) (Some 8) false 0;
                  X86.taintOf X86.RBX] [])
              TA1 false eq_refl) as [H _].
  destruct (H eq_refl) as [[E _]|K]; [discriminate E | exact K].
Defined.

Lemma propagateTaint_length (mf : MachineFunction) (MI : MachineInstr)
    (DS : DestSourcePair) (TA0 TA' : TaintAnalysis) (b : bool) :
  propagateTaint mf MI DS TA0 = Done (b, TA') ->
  (List.length (TaintList TA') <= List.length (TaintList TA0))%nat.
Proof.
  intros H.
  destruct (propagateTaint_inv mf MI DS TA0 TA' b H)
    as [(_ & _ & ->)|[(_ & _ & ->)|[(_ & _ & _ & D & R)|(_ & _ & D & S0 & _ & R)]]];
    try reflexivity;
    apply removeFromTaintList_length in R;
    rewrite ?length_app in R; cbn [List.length] in R; lia.
Qed.

Lemma propagateTaint_keeps_wf (mf : MachineFunction) (MI : MachineInstr)
    (DS : DestSourcePair) (TA0 TA' : TaintAnalysis) (b : bool) :
  wfTaintList (TaintList TA0) = true ->
  propagateTaint mf MI DS TA0 = Done (b, TA') ->
  wfTaintList (TaintList TA') = true.
Proof.
  intros W H.
  destruct (propagateTaint_inv mf MI DS TA0 TA' b H)
    as [(_ & _ & ->)|[(_ & _ & ->)|[(_ & _ & _ & D & R)|(_ & _ & D & S0 & OS & R)]]];
    try exact W.
  - apply (removeFromTaintList_wf _ _ _ W R).
  - apply (removeFromTaintList_wf _ _ _ (wfTaintList_app _ _ W OS) R).
Qed.

Lemma addToTaintList_length (Ti : TaintInfo) (TL : list TaintInfo) :
  (List.length (addToTaintList Ti TL) <= S (List.length TL))%nat.
Proof.
  unfold addToTaintList. destruct (Op Ti) as [[r|v]|]; cbn [isImm negb];
    rewrite ?length_app; cbn [List.length]; lia.
Qed.

Lemma startTaint_inv (mf : MachineFunction) (MI : MachineInstr)
    (DS : DestSourcePair) (TA0 TA' : TaintAnalysis) :
  startTaint mf MI DS TA0 = Done TA' ->
  (TaintList TA0 = [] /\ outs TA' = outs TA0
   /\ (List.length (TaintList TA') <= 3)%nat
   /\ wfTaintList (TaintList TA') = true)
  \/ (TaintList TA0 <> []
      /\ (TA' = TA0 \/ exists b, propagateTaint mf MI DS TA0 = Done (b, TA'))).
Proof.
  unfold startTaint.
  destruct (slotTaint mf (Source DS) (SrcOffset DS)) as [SrcTi|f];
    cbn [bind]; [|discriminate].
  destruct (slotTaint mf (Destination DS) (DestOffset DS)) as [DestTi|f];
    cbn [bind]; [|discriminate].
  destruct (slotTaint mf (Source2 DS) (Src2Offset DS)) as [Src2Ti|f];
    cbn [bind]; [|discriminate].
  destruct (TaintList TA0) as [|T0 TL0] eqn:ETL; cbn [empty].
  - intros H; injection H as <-. left. cbn [TaintList outs].
    split; [reflexivity|]. split; [reflexivity|].
    set (c1 := hasValue (Op DestTi) && hasValue (Offset DestTi)).
    set (c2 := hasValue (Op SrcTi)). set (c3 := hasValue (Op Src2Ti)).
    set (l1 := if c1 then addToTaintList DestTi [] else []).
    set (l2 := if c2 then addToTaintList SrcTi l1 else l1).
    assert (L1 : (List.length l1 <= 1)%nat /\ wfTaintList l1 = true).
    { subst l1. destruct c1; [|split; [cbn; lia | reflexivity]].
      split; [apply (addToTaintList_length DestTi [])
             | now apply addToTaintList_wf]. }
    assert (L2 : (List.length l2 <= 2)%nat /\ wfTaintList l2 = true).
    { subst l2. destruct L1 as [L W]. destruct c2; [|split; [lia|exact W]].
      split; [|now apply addToTaintList_wf].
      pose proof (addToTaintList_length SrcTi l1). lia. }
    destruct L2 as [L W]. destruct c3; [|split; [lia|exact W]].
    split; [|now apply addToTaintList_wf].
    pose proof (addToTaintList_length Src2Ti l2). lia.
  - rewrite <- ETL. right. split; [now rewrite ETL|].
    destruct (hasValue (Op DestTi)).
    + destruct (propagateTaint mf MI DS TA0) as [[b T]|f]; cbn [bind] in *;
        [|discriminate].
      injection H as <-. right. now exists b.
    + injection H as <-. now left.
Qed.

(** ** Invariants of the taint list over a whole walk *)

Section TaintListInvariant.

Variable P : list TaintInfo -> Prop.

Hypothesis P_startTaint :
  forall mf MI DS TA0 TA',
    P (TaintList TA0) -> startTaint mf MI DS TA0 = Done TA' ->
    P (TaintList TA').

Hypothesis P_propagateTaint :
  forall mf MI DS TA0 b TA',
    P (TaintList TA0) -> propagateTaint mf MI DS TA0 = Done (b, TA') ->
    P (TaintList TA').

Lemma scanInstr_invariant (mf : MachineFunction) (MI : MachineInstr)
    (st st' : ScanState) (ex : LoopExit) :
  P (TaintList (TA st)) ->
  scanInstr mf MI st = Done (ex, st') ->
  P (TaintList (TA st')).
Proof.
  intros I. unfold scanInstr.
  destruct (CrashStart MI).
  { destruct (getDestAndSrc MI) as [DS|].
    - destruct (startTaint mf MI DS (TA st)) as [T|f] eqn:E; cbn [bind];
        [|discriminate].
      intros H; injection H as <- <-. apply (P_startTaint _ _ _ _ _ I E).
    - intros H; injection H as <- <-. exact I. }
  destruct (negb (CrashSequenceStarted st));
    [intros H; injection H as <- <-; exact I|].
  destruct (isCall MI || isBranch MI);
    [intros H; injection H as <- <-; exact I|].
  destruct (isPushPop MI); [intros H; injection H as <- <-; exact I|].
  destruct (getDestAndSrc MI) as [DS|];
    [|intros H; injection H as <- <-; exact I].
  destruct (propagateTaint mf MI DS (TA st)) as [[b T]|f] eqn:E;
    cbn [bind]; [|discriminate].
  pose proof (P_propagateTaint _ _ _ _ _ _ I E) as I'.
  destruct (negb b && empty (TaintList T));
    intros H; injection H as <- <-; exact I'.
Qed.

Lemma scanBlock_invariant (mf : MachineFunction) (MIs : list MachineInstr) :
  forall st st' ret,
    P (TaintList (TA st)) ->
    scanBlock mf MIs st = Done (ret, st') ->
    P (TaintList (TA st')).
Proof.
  induction MIs as [|MI rest IH]; intros st st' ret I; cbn [scanBlock].
  - intros H; injection H as <- <-. exact I.
  - destruct (scanInstr mf MI st) as [[ex st1]|f] eqn:E; cbn [bind];
      [|discriminate].
    pose proof (scanInstr_invariant mf MI st st1 ex I E) as I1.
    destruct ex; [now apply IH | |]; intros H; injection H as <- <-;
      exact I1.
Qed.

Lemma scanBlocks_invariant (mf : MachineFunction)
    (MBBs : list MachineBasicBlock) :
  forall st b T,
    P (TaintList (TA st)) ->
    scanBlocks mf MBBs st = Done (b, T) ->
    P (TaintList T).
Proof.
  induction MBBs as [|MBB rest IH]; intros st b T I; cbn [scanBlocks].
  - intros H; injection H as <- <-. exact I.
  - destruct (scanBlock mf (rev MBB) st) as [[ret st1]|f] eqn:E;
      cbn [bind]; [|discriminate].
    pose proof (scanBlock_invariant mf (rev MBB) st st1 ret I E) as I1.
    destruct ret; [intros H; injection H as <- <-; exact I1|].
    now apply IH.
Qed.

Lemma walkFrames_invariant (BM : BlameModule) :
  forall AnalysisStarted Result0 TA0 b T,
    P (TaintList TA0) ->
    walkFrames BM AnalysisStarted Result0 TA0 = Done (b, T) ->
    P (TaintList T).
Proof.
  induction BM as [|BF rest IH]; intros s R TA0 b T I; cbn [walkFrames].
  - intros H; injection H as <- <-. exact I.
  - destruct (negb s && startswith "_" (Name BF)); [now apply IH|].
    destruct (MF BF) as [mf|]; [|intros H; injection H as <- <-; exact I].
    destruct (runOnBlameMF mf TA0) as [[found T1]|f] eqn:E; cbn [bind];
      [|discriminate].
    assert (I1 : P (TaintList T1)).
    { unfold runOnBlameMF in E.
      apply (scanBlocks_invariant mf (rev (Blocks mf))
               (mkScanState false false TA0) found T1 I E). }
    destruct found; [|now apply IH].
    destruct (empty (TaintList T1));
      [intros H; injection H as <- <-; exact I1 | now apply IH].
Qed.

End TaintListInvariant.

(** X7: over a whole walk the taint list never holds more than three
    entries, or than it held at the start if that was more: seeding adds at
    most the three slots of one pair, and only to the empty list, and a
    propagation step never adds to the size. *)
Theorem runOnBlameModule_bounded (BM : BlameModule) (TA0 TA' : TaintAnalysis)
    (b : bool) :
  runOnBlameModule BM TA0 = Done (b, TA') ->
  (List.length (TaintList TA') <= Nat.max 3 (List.length (TaintList TA0)))%nat.
Proof.
  unfold runOnBlameModule.
  set (n := Nat.max 3 (List.length (TaintList TA0))).
  apply (walkFrames_invariant (fun l => (List.length l <= n)%nat)).
  - intros mf MI DS T0 T1 I H.
    destruct (startTaint_inv mf MI DS T0 T1 H)
      as [(_ & _ & L & _)|(_ & [->|[b' K]])].
    + subst n. lia.
    + exact I.
    + pose proof (propagateTaint_length mf MI DS T0 T1 b' K). lia.
  - intros mf MI DS T0 b' T1 I H.
    pose proof (propagateTaint_length mf MI DS T0 T1 b' H). lia.
  - subst n. lia.
Qed.

Lemma runOnBlameModule_bounded_witness :
  (List.length [X86.taintOf X86.RBX] <= 3)%nat.
Proof.
  apply (runOnBlameModule_bounded
           [mkBlameFunction "main" (Some X86.residual);
            mkBlameFunction "caller" (Some X86.caller)]
           newTaintAnalysis
           (mkTaintAnalysis [X86.taintOf X86.RBX] X86.blameMovRaxZero) true).
  reflexivity.
Defined.

(** X8: a walk that starts from a taint list of register descriptors, the
    empty list of the fresh analysis included, ends with a taint list of
    register descriptors: no null operand and no immediate is ever
    tainted. *)
Theorem runOnBlameModule_taints_registers (BM : BlameModule)
    (TA0 TA' : TaintAnalysis) (b : bool) :
  wfTaintList (TaintList TA0) = true ->
  runOnBlameModule BM TA0 = Done (b, TA') ->
  forall T, In T (TaintList TA') -> exists r, Op T = Some (MO_Register r).
Proof.
  intros W H.
  assert (W' : wfTaintList (TaintList TA') = true).
  { revert H. unfold runOnBlameModule.
    apply (walkFrames_invariant (fun l => wfTaintList l = true)).
    - intros mf MI DS T0 T1 I K.
      destruct (startTaint_inv mf MI DS T0 T1 K)
        as [(_ & _ & _ & W1)|(_ & [->|[b' K']])].
      + exact W1.
      + exact I.
      + apply (propagateTaint_keeps_wf mf MI DS T0 T1 b' I K').
    - intros mf MI DS T0 b' T1 I K.
      apply (propagateTaint_keeps_wf mf MI DS T0 T1 b' I K).
    - exact W. }
  intros T I. unfold wfTaintList in W'. rewrite forallb_forall in W'.
  specialize (W' T I). unfold overRegister in W'.
  destruct (Op T) as [[r|v]|]; try discriminate. now exists r.
Qed.

Lemma runOnBlameModule_taints_registers_witness :
  exists r, Op (X86.taintOf X86.RBX) = Some (MO_Register r).
Proof.
  apply (runOnBlameModule_taints_registers
           [mkBlameFunction "main" (Some X86.residual);
            mkBlameFunction "caller" (Some X86.caller)]
           newTaintAnalysis
           (mkTaintAnalysis [X86.taintOf X86.RBX] X86.blameMovRaxZero) true
           eq_refl eq_refl).
  left. reflexivity.
Defined.

(** ** What the scan of a frame passes over *)

Lemma forallb_rev {A : Type} (f : A -> bool) (l : list A) :
  forallb f (rev l) = forallb f l.
Proof.
  induction l as [|a l IH]; [reflexivity|].
  cbn [rev forallb]. rewrite forallb_app, IH. cbn [forallb].
  rewrite andb_true_r. apply andb_comm.
Qed.

Lemma scanBlock_skip (mf : MachineFunction) (l rest : list MachineInstr)
    (st : ScanState) :
  CrashSequenceStarted st = false ->
  noCrashStart l = true ->
  scanBlock mf (l ++ rest) st = scanBlock mf rest st.
Proof.
  intros S. unfold noCrashStart.
  induction l as [|MI l IH]; [reflexivity|].
  cbn [forallb app scanBlock]. intros H. apply andb_prop in H as [C N].
  apply negb_true_iff in C. unfold scanInstr. rewrite C, S.
  cbn [negb bind]. now apply IH.
Qed.

Lemma scanBlocks_skip (mf : MachineFunction)
    (later rest : list MachineBasicBlock) (st : ScanState) :
  CrashSequenceStarted st = false ->
  forallb noCrashStart later = true ->
  scanBlocks mf (rev later ++ rest) st = scanBlocks mf rest st.
Proof.
  intros S H. rewrite <- forallb_rev in H.
  induction (rev later) as [|MBB l IH]; [reflexivity|].
  cbn [forallb] in H. apply andb_prop in H as [N H].
  cbn [app scanBlocks].
  unfold noCrashStart in N. rewrite <- forallb_rev in N.
  pose proof (scanBlock_skip mf (rev MBB) [] st S N) as K.
  rewrite app_nil_r in K. rewrite K. cbn [scanBlock bind]. now apply IH.
Qed.

Lemma scanBlock_withBlocks (mf : MachineFunction)
    (MBBs : list MachineBasicBlock) (MIs : list MachineInstr) :
  forall st, scanBlock (withBlocks mf MBBs) MIs st = scanBlock mf MIs st.
Proof.
  induction MIs as [|MI rest IH]; intros st; [reflexivity|].
  cbn [scanBlock].
  change (scanInstr (withBlocks mf MBBs) MI st) with (scanInstr mf MI st).
  destruct (scanInstr mf MI st) as [[[| |b] st1]|f]; cbn [bind];
    try reflexivity. apply IH.
Qed.

Lemma scanBlocks_withBlocks (mf : MachineFunction)
    (MBBs : list MachineBasicBlock) (l : list MachineBasicBlock) :
  forall st, scanBlocks (withBlocks mf MBBs) l st = scanBlocks mf l st.
Proof.
  induction l as [|MBB rest IH]; intros st; [reflexivity|].
  cbn [scanBlocks]. rewrite scanBlock_withBlocks.
  destruct (scanBlock mf (rev MBB) st) as [[[b|] st1]|f]; cbn [bind];
    try reflexivity. apply IH.
Qed.

(** X9: a frame without a crash-flagged instruction is left alone,
    whatever its instructions are, and a trace whose lifted frames all lack
    the crash point ends in failure with the analysis untouched. *)
Theorem runOnBlameMF_without_crash_point (TA0 : TaintAnalysis) :
  (forall mf,
     forallb noCrashStart (Blocks mf) = true ->
     runOnBlameMF mf TA0 = Done (false, TA0))
  /\ (forall BM,
        (forall BF mf, In BF BM -> MF BF = Some mf ->
                       forallb noCrashStart (Blocks mf) = true) ->
        runOnBlameModule BM TA0 = Done (false, TA0)).
Proof.
  assert (F : forall mf,
             forallb noCrashStart (Blocks mf) = true ->
             runOnBlameMF mf TA0 = Done (false, TA0)).
  { intros mf H. unfold runOnBlameMF.
    pose proof (scanBlocks_skip mf (Blocks mf) []
                  (mkScanState false false TA0) eq_refl H) as K.
    rewrite app_nil_r in K. now rewrite K. }
  split; [exact F|].
  intros BM. unfold runOnBlameModule. generalize false at 1.
  induction BM as [|BF rest IH]; intros s H; [reflexivity|].
  cbn [walkFrames].
  destruct (negb s && startswith "_" (Name BF)).
  - apply IH. intros B mf I. apply H. now right.
  - destruct (MF BF) as [mf|] eqn:M; [|reflexivity].
    rewrite (F mf (H BF mf (or_introl eq_refl) M)). cbn [bind].
    apply IH. intros B mf' I. apply H. now right.
Qed.

Lemma runOnBlameMF_without_crash_point_witness :
  runOnBlameMF (X86.frame "f" [[X86.movRbxRcx; X86.movRaxZero]; [X86.popRbp]])
    (mkTaintAnalysis [X86.taintOf X86.RAX] [])
  = Done (false, mkTaintAnalysis [X86.taintOf X86.RAX] []).
Proof.
  destruct (runOnBlameMF_without_crash_point
              (mkTaintAnalysis [X86.taintOf X86.RAX] [])) as [H _].
  apply H. reflexivity.
Defined.

(** X10: instructions after the crash point in program order play no part:
    the scan of a frame is the scan of the frame cut off behind its
    crash-flagged instruction. *)
Theorem runOnBlameMF_ignores_after_crash (mf : MachineFunction)
    (earlier later : list MachineBasicBlock)
    (before after : list MachineInstr) (crash : MachineInstr)
    (TA0 : TaintAnalysis) :
  Blocks mf = earlier ++ (before ++ crash :: after) :: later ->
  noCrashStart after = true ->
  forallb noCrashStart later = true ->
  runOnBlameMF mf TA0
  = runOnBlameMF (withBlocks mf (earlier ++ [before ++ [crash]])) TA0.
Proof.
  intros B NA NL. unfold runOnBlameMF. rewrite B.
  rewrite scanBlocks_withBlocks. cbn [Blocks withBlocks].
  rewrite !rev_app_distr. cbn [rev app]. rewrite <- app_assoc.
  rewrite (scanBlocks_skip mf later _ (mkScanState false false TA0)
             eq_refl NL).
  cbn [app scanBlocks].
  rewrite !rev_app_distr. cbn [rev app]. rewrite <- app_assoc.
  unfold noCrashStart in NA. rewrite <- forallb_rev in NA.
  rewrite (scanBlock_skip mf (rev after) _ (mkScanState false false TA0)
             eq_refl NA).
  reflexivity.
Qed.

Lemma runOnBlameMF_ignores_after_crash_witness :
  runOnBlameMF
    (X86.frame "main"
       [[X86.movRaxZero; X86.crashLoad; X86.movRbxRcx]; [X86.movRaxRbx]])
    newTaintAnalysis
  = Done (true, mkTaintAnalysis [] X86.blameMovRaxZero).
Proof.
  rewrite (runOnBlameMF_ignores_after_crash
             (X86.frame "main"
                [[X86.movRaxZero; X86.crashLoad; X86.movRbxRcx];
                 [X86.movRaxRbx]])
             [] [[X86.movRaxRbx]] [X86.movRaxZero] [X86.movRbxRcx]
             X86.crashLoad newTaintAnalysis eq_refl eq_refl eq_refl).
  reflexivity.
Defined.

Lemma scanInstr_passedOver (mf : MachineFunction) (MI : MachineInstr)
    (st : ScanState) :
  passedOver MI = true -> scanInstr mf MI st = Done (LoopContinue, st).
Proof.
  unfold passedOver, scanInstr. intros H.
  apply andb_prop in H as [C H]. apply negb_true_iff in C. rewrite C.
  destruct (negb (CrashSequenceStarted st)); [reflexivity|].
  destruct (isCall MI || isBranch MI); [reflexivity|].
  cbn [orb] in H. apply andb_prop in H as [P G].
  apply negb_true_iff in P. rewrite P.
  now destruct (getDestAndSrc MI).
Qed.

Lemma scanBlock_filter (mf : MachineFunction) (MIs : list MachineInstr) :
  forall st,
    scanBlock mf (filter (fun MI => negb (passedOver MI)) MIs) st
    = scanBlock mf MIs st.
Proof.
  induction MIs as [|MI rest IH]; intros st; [reflexivity|].
  cbn [filter]. destruct (passedOver MI) eqn:E; cbn [negb scanBlock].
  - rewrite (scanInstr_passedOver mf MI st E). cbn [bind]. apply IH.
  - destruct (scanInstr mf MI st) as [[[| |b] st1]|f]; cbn [bind];
      try reflexivity. apply IH.
Qed.

(** X11: calls, branches and instructions without a pair that are neither
    push/pop nor the crash point can be taken out of a frame without any
    change to what the scan of the frame does. *)
Theorem runOnBlameMF_passes_over (mf : MachineFunction) (TA0 : TaintAnalysis) :
  runOnBlameMF
    (withBlocks mf
       (map (filter (fun MI => negb (passedOver MI))) (Blocks mf))) TA0
  = runOnBlameMF mf TA0.
Proof.
  unfold runOnBlameMF. rewrite scanBlocks_withBlocks. cbn [Blocks withBlocks].
  rewrite <- map_rev. unfold MachineBasicBlock in *.
  generalize (mkScanState false false TA0).
  set (l := @rev (list MachineInstr) (Blocks mf)). clearbody l.
  induction l as [|MBB rest IH]; intros st; [reflexivity|].
  cbn [map scanBlocks]. rewrite <- filter_rev, scanBlock_filter.
  destruct (scanBlock mf (rev MBB) st) as [[[b|] st1]|f]; cbn [bind];
    try reflexivity. apply IH.
Qed.

Lemma scanInstr_crash (mf : MachineFunction) (MI : MachineInstr)
    (st : ScanState) :
  CrashStart MI = true ->
  scanInstr mf MI st
  = match getDestAndSrc MI with
    | None => Done (LoopContinue, mkScanState true (Result st) (TA st))
    | Some DS =>
        TA' <- startTaint mf MI DS (TA st) ;;
        Done (LoopContinue, mkScanState true (Result st) TA')
    end.
Proof. intros C. unfold scanInstr. now rewrite C. Qed.

(** X12: when nothing precedes the crash-flagged instruction in its frame,
    the scan of the frame is [startTaint] alone and its result is [false],
    also when [startTaint] hands the pair to [propagateTaint] and the
    instruction is blamed there. *)
Theorem runOnBlameMF_crash_first (mf : MachineFunction)
    (crash : MachineInstr) (after : list MachineInstr)
    (later : list MachineBasicBlock) (TA0 : TaintAnalysis) :
  Blocks mf = (crash :: after) :: later ->
  CrashStart crash = true ->
  noCrashStart after = true ->
  forallb noCrashStart later = true ->
  runOnBlameMF mf TA0
  = match getDestAndSrc crash with
    | None => Done (false, TA0)
    | Some DS => TA' <- startTaint mf crash DS TA0 ;; Done (false, TA')
    end.
Proof.
  intros B C NA NL. unfold runOnBlameMF. rewrite B.
  change (rev ((crash :: after) :: later))
    with (rev later ++ [crash :: after]).
  rewrite (scanBlocks_skip mf later _ (mkScanState false false TA0)
             eq_refl NL).
  cbn [scanBlocks rev].
  unfold noCrashStart in NA. rewrite <- forallb_rev in NA.
  rewrite (scanBlock_skip mf (rev after) _ (mkScanState false false TA0)
             eq_refl NA).
  cbn [scanBlock]. rewrite (scanInstr_crash mf crash _ C). cbn [Result TA].
  destruct (getDestAndSrc crash) as [DS|]; [|reflexivity].
  now destruct (startTaint mf crash DS TA0).
Qed.

Lemma runOnBlameMF_crash_first_witness :
  runOnBlameMF (X86.frame "caller" [[Runs.crashMovRaxZero; Runs.callF]])
    (mkTaintAnalysis [X86.taintOf X86.RAX] [])
  = Done (false,
          mkTaintAnalysis []
            [BlameFunctionIs "caller"; WarnCompileWithG;
             BlameInstructionIs "mov rax, 0"]).
Proof.
  rewrite (runOnBlameMF_crash_first
             (X86.frame "caller" [[Runs.crashMovRaxZero; Runs.callF]])
             Runs.crashMovRaxZero [Runs.callF] []
             (mkTaintAnalysis [X86.taintOf X86.RAX] [])
             eq_refl eq_refl eq_refl eq_refl).
  reflexivity.
Defined.

(** X13: past the crash point and with an empty taint list, the first
    instruction that reaches [propagateTaint] ends the scan of the frame
    with success; nothing is blamed, the pair is not looked at and the
    instructions and blocks before it are not scanned. *)
Theorem scanBlocks_empty_taint_list (mf : MachineFunction) (MI : MachineInstr)
    (st : ScanState) (before : list MachineInstr)
    (earlier : list MachineBasicBlock) :
  CrashSequenceStarted st = true ->
  TaintList (TA st) = [] ->
  ordinary MI = true ->
  scanBlocks mf ((before ++ [MI]) :: earlier) st = Done (true, TA st).
Proof.
  intros S E O. unfold ordinary in O.
  apply andb_prop in O as [O G]. apply andb_prop in O as [O P].
  apply andb_prop in O as [C B].
  apply negb_true_iff in C, B, P.
  destruct (getDestAndSrc MI) as [DS|] eqn:EG; [|discriminate G].
  cbn [scanBlocks]. rewrite rev_app_distr. cbn [rev app scanBlock].
  rewrite (scanInstr_propagates mf MI DS st C S B P EG).
  unfold propagateTaint. rewrite E. cbn [empty bind negb andb].
  rewrite E. reflexivity.
Qed.

Lemma scanBlocks_empty_taint_list_witness :
  runOnBlameMF (X86.frame "main" [[X86.movRbxRcx; Runs.crashMovImm]])
    newTaintAnalysis
  = Done (true, newTaintAnalysis).
Proof.
  exact (scanBlocks_empty_taint_list
           (X86.frame "main" [[X86.movRbxRcx; Runs.crashMovImm]])
           X86.movRbxRcx (mkScanState true false newTaintAnalysis) [] []
           eq_refl eq_refl eq_refl).
Defined.

(** ** Traces with nothing to analyse *)

(** X14: a trace made of start-up frames only, or whose first frame that
    is no start-up frame was not lifted, ends in failure with the analysis
    untouched, whether the start-up frames were lifted or not. *)
Theorem runOnBlameModule_nothing_to_analyse (pre rest : BlameModule)
    (TA0 : TaintAnalysis) :
  forallb (fun BF => startswith "_" (Name BF)) pre = true ->
  match rest with
  | [] => True
  | BF :: _ => startswith "_" (Name BF) = false /\ MF BF = None
  end ->
  runOnBlameModule (pre ++ rest) TA0 = Done (false, TA0).
Proof.
  intros P R. unfold runOnBlameModule.
  induction pre as [|F pre IH].
  - destruct rest as [|BF rest']; [reflexivity|]. destruct R as [N M].
    cbn [app walkFrames]. now rewrite N, M.
  - cbn [forallb] in P. apply andb_prop in P as [PF P].
    cbn [app walkFrames]. rewrite PF. cbn [negb andb]. now apply IH.
Qed.

Lemma runOnBlameModule_nothing_to_analyse_witness :
  runOnBlameModule
    [mkBlameFunction "_start" (Some X86.residual);
     mkBlameFunction "main" None;
     mkBlameFunction "caller" (Some X86.caller)] newTaintAnalysis
  = Done (false, newTaintAnalysis).
Proof.
  exact (runOnBlameModule_nothing_to_analyse
           [mkBlameFunction "_start" (Some X86.residual)]
           [mkBlameFunction "main" None;
            mkBlameFunction "caller" (Some X86.caller)]
           newTaintAnalysis eq_refl (conj eq_refl eq_refl)).
Defined.

(** ** Success and the blame report *)

Lemma propagateTaint_outs (mf : MachineFunction) (MI : MachineInstr)
    (DS : DestSourcePair) (TA0 TA' : TaintAnalysis) (b : bool) :
  propagateTaint mf MI DS TA0 = Done (b, TA') ->
  exists o,
    outs TA' = outs TA0 ++ o
    /\ (b = false -> TaintList TA' = [] \/ o <> []).
Proof.
  intros H.
  destruct (propagateTaint_inv mf MI DS TA0 TA' b H)
    as [(-> & E & ->)|[(-> & _ & ->)|[(-> & _ & O & _)|(-> & O & _)]]].
  - exists []. rewrite app_nil_r. split; [reflexivity | now left].
  - exists []. rewrite app_nil_r. split; [reflexivity | discriminate].
  - exists (blameReport mf MI). split; [exact O|]. intros _. right.
    unfold blameReport. discriminate.
  - exists []. rewrite app_nil_r. split; [exact O | discriminate].
Qed.

Lemma startTaint_outs (mf : MachineFunction) (MI : MachineInstr)
    (DS : DestSourcePair) (TA0 TA' : TaintAnalysis) :
  startTaint mf MI DS TA0 = Done TA' ->
  exists o, outs TA' = outs TA0 ++ o.
Proof.
  intros H.
  destruct (startTaint_inv mf MI DS TA0 TA' H)
    as [(_ & O & _)|(_ & [->|[b K]])].
  - exists []. now rewrite app_nil_r.
  - exists []. now rewrite app_nil_r.
  - destruct (propagateTaint_outs mf MI DS TA0 TA' b K) as (o & O & _).
    now exists o.
Qed.

Lemma reported_more (o0 : list Output) (flag flag' : bool)
    (T T' : TaintAnalysis) (o' : list Output) :
  reported o0 flag T ->
  outs T' = outs T ++ o' ->
  (flag' = true -> flag = true \/ o' <> []) ->
  reported o0 flag' T'.
Proof.
  intros (o & E & N) E' F. exists (o ++ o').
  rewrite E', E, app_assoc. split; [reflexivity|].
  intros K Z. apply app_eq_nil in Z as [-> ->].
  destruct (F K) as [G|G]; [now apply N | now apply G].
Qed.

Lemma scanInstr_reported (o0 : list Output) (mf : MachineFunction)
    (MI : MachineInstr) (st st' : ScanState) (ex : LoopExit) :
  reported o0 (Result st) (TA st) ->
  scanInstr mf MI st = Done (ex, st') ->
  match ex with
  | LoopReturn b => b = true /\ TaintList (TA st') = []
  | _ => reported o0 (Result st') (TA st')
  end.
Proof.
  intros I. unfold scanInstr.
  destruct (CrashStart MI).
  { destruct (getDestAndSrc MI) as [DS|].
    - destruct (startTaint mf MI DS (TA st)) as [T|f] eqn:E; cbn [bind];
        [|discriminate].
      intros H; injection H as <- <-.
      destruct (startTaint_outs mf MI DS (TA st) T E) as (o & O).
      apply (reported_more o0 (Result st) _ (TA st) _ o I O). now left.
    - intros H; injection H as <- <-. exact I. }
  destruct (negb (CrashSequenceStarted st));
    [intros H; injection H as <- <-; exact I|].
  destruct (isCall MI || isBranch MI);
    [intros H; injection H as <- <-; exact I|].
  destruct (isPushPop MI); [intros H; injection H as <- <-; exact I|].
  destruct (getDestAndSrc MI) as [DS|];
    [|intros H; injection H as <- <-; exact I].
  destruct (propagateTaint mf MI DS (TA st)) as [[b T]|f] eqn:E;
    cbn [bind]; [|discriminate].
  destruct (propagateTaint_outs mf MI DS (TA st) T b E) as (o & O & F).
  destruct b; cbn [negb andb].
  - intros H; injection H as <- <-.
    apply (reported_more o0 (Result st) _ (TA st) _ o I O). now left.
  - destruct (empty (TaintList T)) eqn:EE;
      intros H; injection H as <- <-; cbn [Result TA].
    + split; [reflexivity|]. now destruct (TaintList T).
    + apply (reported_more o0 (Result st) _ (TA st) _ o I O).
      intros _. right. destruct (F eq_refl) as [Z|Z]; [|exact Z].
      rewrite Z in EE. discriminate EE.
Qed.

Lemma scanBlock_reported (o0 : list Output) (mf : MachineFunction)
    (MIs : list MachineInstr) :
  forall st st' ret,
    reported o0 (Result st) (TA st) ->
    scanBlock mf MIs st = Done (ret, st') ->
    match ret with
    | Some b => b = true /\ TaintList (TA st') = []
    | None => reported o0 (Result st') (TA st')
    end.
Proof.
  induction MIs as [|MI rest IH]; intros st st' ret I; cbn [scanBlock].
  - intros H; injection H as <- <-. exact I.
  - destruct (scanInstr mf MI st) as [[ex st1]|f] eqn:E; cbn [bind];
      [|discriminate].
    pose proof (scanInstr_reported o0 mf MI st st1 ex I E) as I1.
    destruct ex as [| |b].
    + now apply IH.
    + intros H; injection H as <- <-. exact I1.
    + intros H; injection H as <- <-. exact I1.
Qed.

Lemma scanBlocks_reported (o0 : list Output) (mf : MachineFunction)
    (MBBs : list MachineBasicBlock) :
  forall st b T,
    reported o0 (Result st) (TA st) ->
    scanBlocks mf MBBs st = Done (b, T) ->
    (b = true /\ TaintList T = []) \/ reported o0 b T.
Proof.
  induction MBBs as [|MBB rest IH]; intros st b T I; cbn [scanBlocks].
  - intros H; injection H as <- <-. now right.
  - destruct (scanBlock mf (rev MBB) st) as [[ret st1]|f] eqn:E; cbn [bind];
      [|discriminate].
    pose proof (scanBlock_reported o0 mf (rev MBB) st st1 ret I E) as I1.
    destruct ret as [b1|].
    + intros H; injection H as <- <-. now left.
    + now apply IH.
Qed.

Lemma walkFrames_reported (o0 : list Output) (BM : BlameModule) :
  forall AnalysisStarted Result0 TA0 b T,
    reported o0 Result0 TA0 ->
    walkFrames BM AnalysisStarted Result0 TA0 = Done (b, T) ->
    (b = true /\ TaintList T = []) \/ reported o0 b T.
Proof.
  induction BM as [|BF rest IH]; intros s R TA0 b T I; cbn [walkFrames].
  - intros H; injection H as <- <-. now right.
  - destruct (negb s && startswith "_" (Name BF)); [now apply IH|].
    destruct (MF BF) as [mf|]; [|intros H; injection H as <- <-; now right].
    destruct (runOnBlameMF mf TA0) as [[found T1]|f] eqn:E; cbn [bind];
      [|discriminate].
    unfold runOnBlameMF in E.
    assert (I0 : reported (outs TA0) false TA0).
    { exists []. rewrite app_nil_r. split; [reflexivity | discriminate]. }
    destruct (scanBlocks_reported (outs TA0) mf (rev (Blocks mf))
                (mkScanState false false TA0) found T1 I0 E)
      as [[-> ET]|(o & O & N)].
    + rewrite ET. cbn [empty]. intros H; injection H as <- <-. now left.
    + assert (I1 : reported o0 (R || found) T1).
      { apply (reported_more o0 R _ TA0 _ o I O).
        intros K. apply orb_prop in K as [K|K]; [now left | right; auto]. }
      destruct found.
      * destruct (empty (TaintList T1)) eqn:EE.
        -- intros H; injection H as <- <-. left.
           split; [reflexivity|]. now destruct (TaintList T1).
        -- apply IH. now rewrite orb_true_r in *.
      * apply IH. now rewrite orb_false_r in I1.
Qed.

(** X15: when the walk reports success, either the taint list is empty
    at the end or a blame report has been appended to the output during
    the walk. *)
Theorem runOnBlameModule_success_reports (BM : BlameModule)
    (TA0 TA' : TaintAnalysis) :
  runOnBlameModule BM TA0 = Done (true, TA') ->
  TaintList TA' = []
  \/ exists o, outs TA' = outs TA0 ++ o /\ o <> [].
Proof.
  intros H.
  assert (I0 : reported (outs TA0) false TA0).
  { exists []. rewrite app_nil_r. split; [reflexivity | discriminate]. }
  destruct (walkFrames_reported (outs TA0) BM false false TA0 true TA' I0 H)
    as [[_ E]|(o & O & N)].
  - now left.
  - right. exists o. split; [exact O | now apply N].
Qed.

Lemma runOnBlameModule_success_reports_witness :
  [X86.taintOf X86.RBX] = []
  \/ exists o, X86.blameMovRaxZero = [] ++ o /\ o <> [].
Proof.
  exact (runOnBlameModule_success_reports
           [mkBlameFunction "main" (Some X86.residual);
            mkBlameFunction "caller" (Some X86.caller)]
           newTaintAnalysis
           (mkTaintAnalysis [X86.taintOf X86.RBX] X86.blameMovRaxZero)
           eq_refl).
Defined.
